(** * The news feed front-end: feed parsing, date normalisation, ordering
      and card fallback

    A shallow embedding of [src/services/news.ts] (the CSV feed parser and
    [getNews]), of the page component (the date normaliser, the ordering and
    the featured/remaining partition) and of [news-article-card.tsx] (the
    image fallback of a card), with the properties of the specification
    stated and proved over it. *)

From Stdlib Require Import List Bool Arith ZArith NArith Lia.
From Stdlib Require Import Permutation Sorted.
From Stdlib Require Import Strings.String Strings.Ascii Numbers.DecimalString.
Import ListNotations.

(* ================================================================== *)
(** * JavaScript strings *)

(** A JavaScript string is a sequence of UTF-16 code units.  The functions
    below are the built-ins the program calls on strings: [trim],
    [split], [+=], and the truthiness test. *)
Module JsString.

Definition code_unit := N.
Definition str := list code_unit.

Definition QUOTE : code_unit := 34%N.   (* the double quote *)
Definition COMMA : code_unit := 44%N.   (* the comma *)
Definition LF    : code_unit := 10%N.   (* the line feed *)

(** An ASCII literal as a JavaScript string. *)
Fixpoint lit (s : string) : str :=
  match s with
  | EmptyString => []
  | String c r => N_of_ascii c :: lit r
  end.

(** Decimal rendering of a number inside a template literal. *)
Definition show_nat (n : nat) : str :=
  lit (NilEmpty.string_of_uint (Nat.to_uint n)).

(** ECMAScript [WhiteSpace] and [LineTerminator] code points, the set
    stripped by [String.prototype.trim]. *)
Definition is_ws (c : code_unit) : bool :=
  ((9 <=? c) && (c <=? 13) || (c =? 32) || (c =? 160) || (c =? 5760)
   || (8192 <=? c) && (c <=? 8202)
   || (c =? 8232) || (c =? 8233) || (c =? 8239) || (c =? 8287)
   || (c =? 12288) || (c =? 65279))%N.

Fixpoint trimStart (s : str) : str :=
  match s with
  | [] => []
  | c :: r => if is_ws c then trimStart r else s
  end.

Definition trimEnd (s : str) : str := rev (trimStart (rev s)).

Definition trim (s : str) : str := trimEnd (trimStart s).

(** [s.split(sep)] for a separator of one character: the parts between
    its occurrences; never an empty array. *)
Fixpoint split (sep : code_unit) (s : str) : list str :=
  match s with
  | [] => [[]]
  | c :: r =>
      if (c =? sep)%N then [] :: split sep r
      else match split sep r with
           | [] => [[c]]
           | h :: t => (c :: h) :: t
           end
  end.

(** [s.split] on the line feed. *)
Definition split_lf (s : str) : list str := split LF s.

(** [lines.join] with the line feed, the inverse of [split_lf], used to
    build texts of several lines. *)
Fixpoint join_lf (ls : list str) : str :=
  match ls with
  | [] => []
  | [l] => l
  | l :: rest => l ++ LF :: join_lf rest
  end.

(** A string is truthy when it is not empty. *)
Definition truthy (s : str) : bool :=
  match s with [] => false | _ :: _ => true end.

End JsString.
Import JsString.

(* ================================================================== *)
(** * The CSV parser ([parseCSV], services/news.ts) *)

Module Csv.

(** The three mutable locals of the per-line loop. *)
Record scan_state := mkScan {
  values   : list str;
  current  : str;
  inQuotes : bool
}.

Definition init : scan_state := mkScan [] [] false.

(** The body of the [for] loop, run over the characters that are left.
    The branch that sees two quotes in a row consumes both ([i++]). *)
Fixpoint scan (st : scan_state) (line : str) : scan_state :=
  match line with
  | [] => st
  | char :: rest =>
      if (char =? QUOTE)%N then
        match rest with
        | next :: rest' =>
            if (next =? QUOTE)%N then
              scan (mkScan (values st) (current st ++ [QUOTE]) (inQuotes st)) rest'
            else
              scan (mkScan (values st) (current st) (negb (inQuotes st))) rest
        | [] =>
            scan (mkScan (values st) (current st) (negb (inQuotes st))) rest
        end
      else if (char =? COMMA)%N && negb (inQuotes st) then
        scan (mkScan (values st ++ [trim (current st)]) [] (inQuotes st)) rest
      else
        scan (mkScan (values st) (current st ++ [char]) (inQuotes st)) rest
  end.

(** [values.push(current.trim())] after the loop. *)
Definition finish (st : scan_state) : list str :=
  values st ++ [trim (current st)].

(** The arrow function mapped over the lines. *)
Definition parseLine (line : str) : list str := finish (scan init line).

Definition parseCSV (csvText : str) : list (list str) :=
  map parseLine (split_lf (trim csvText)).

End Csv.

(* ================================================================== *)
(** * Effects: console diagnostics, thrown errors, awaited promises *)

Module Effects.

(** A thrown or rejected value, with its message. *)
Inductive js_error := Error (message : str).

(** One line written to the console. *)
Inductive console :=
| warn  (msg : str)
| error (msg : str) (cause : js_error).

(** What [await p] gives: the value of a fulfilled promise, or the reason
    of a rejected one, which [await] throws. *)
Inductive settled (A : Type) :=
| fulfilled (a : A)
| rejected (reason : js_error).
Arguments fulfilled {A} a.
Arguments rejected {A} reason.

(** A computation that writes to the console and either returns or
    throws. *)
Definition eff (A : Type) : Type := settled A * list console.

Definition ret {A} (a : A) : eff A := (fulfilled a, []).
Definition throw {A} (e : js_error) : eff A := (rejected e, []).
Definition log (c : console) : eff unit := (fulfilled tt, [c]).
Definition await {A} (p : settled A) : eff A := (p, []).

Definition bind {A B} (m : eff A) (k : A -> eff B) : eff B :=
  match m with
  | (fulfilled a, out) => let (r, out') := k a in (r, out ++ out')
  | (rejected e, out) => (rejected e, out)
  end.

(** [try { body } catch (e) { handler e }] *)
Definition try_catch {A} (body : eff A) (handler : js_error -> eff A) : eff A :=
  match body with
  | (fulfilled a, out) => (fulfilled a, out)
  | (rejected e, out) => let (r, out') := handler e in (r, out ++ out')
  end.

Definition outcome {A} (m : eff A) : settled A := fst m.
Definition printed {A} (m : eff A) : list console := snd m.

End Effects.
Import Effects.

Declare Scope eff_scope.
Delimit Scope eff_scope with eff.
Notation "x <- m ;; k" := (bind m (fun x => k))
  (at level 61, m at next level, right associativity) : eff_scope.
Notation "m ;;; k" := (bind m (fun _ => k))
  (at level 61, right associativity) : eff_scope.

(* ================================================================== *)
(** * JavaScript arrays *)

(** The array built-ins the program calls, on lists.  Indices are the
    non-negative literals of the source. *)
Module JsArray.

(** [a.slice(start)] *)
Definition slice_from {A} (start : nat) (l : list A) : list A :=
  skipn start l.

(** [a.slice(start, stop)] *)
Definition slice {A} (start stop : nat) (l : list A) : list A :=
  firstn (stop - start) (skipn start l).

Section Sort.
Variable A : Type.
(** The comparator: negative when its first argument goes first,
    positive when its second does, zero to keep the order. *)
Variable comparefn : A -> A -> Z.

(** [x] is put in front of the first element it does not have to
    follow. *)
Fixpoint insert (x : A) (l : list A) : list A :=
  match l with
  | [] => [x]
  | y :: l' =>
      if (comparefn x y >? 0)%Z then y :: insert x l'
      else x :: y :: l'
  end.

(** [a.sort(comparefn)].  The language requires the sort to be stable;
    for a consistent comparator every stable sort gives the list that
    this insertion sort gives. *)
Fixpoint sort (l : list A) : list A :=
  match l with
  | [] => []
  | x :: l' => insert x (sort l')
  end.
End Sort.
Arguments insert {A} comparefn x l.
Arguments sort {A} comparefn l.

End JsArray.
Import JsArray.

(* ================================================================== *)
(** * Feed ingestion ([getNews], services/news.ts) *)

Module News.

Record NewsArticle := mkArticle {
  title    : str;
  summary  : str;
  url      : str;
  source   : str;
  category : str;
  imageUrl : str;
  date     : option str   (* [date?: string] *)
}.

(** [row[k]]: [undefined] past the end of the array. *)
Definition at_index (row : list str) (k : nat) : option str := nth_error row k.

(** Truthiness of [row[k]]: defined and not the empty string. *)
Definition is_truthy (v : option str) : bool :=
  match v with
  | Some s => truthy s
  | None => false
  end.

(** [v || d] with a string default. *)
Definition or_else (v : option str) (d : str) : str :=
  match v with
  | Some (c :: r) => c :: r
  | _ => d
  end.

(** [v || undefined] *)
Definition or_undefined (v : option str) : option str :=
  match v with
  | Some (c :: r) => Some (c :: r)
  | _ => None
  end.

(** The object literal pushed for a kept row. *)
Definition article_of_row (row : list str) : NewsArticle :=
  {| title    := or_else (at_index row 0) (lit "No Title");
     date     := or_undefined (at_index row 1);
     imageUrl := or_else (at_index row 2) [];
     summary  := or_else (at_index row 3) (lit "No Summary");
     url      := or_else (at_index row 4) (lit "#");
     source   := or_else (at_index row 5) (lit "Unknown Source");
     category := lit "General" |}.

Definition skip_message (index : nat) : str :=
  lit "Skipping row " ++ show_nat (index + 2)
    ++ lit " due to missing title or URL.".

(** The callback of [dataRows.reduce]: [acc] is pushed to, or a warning
    is printed; [acc] is returned either way. *)
Definition reducer (acc : list NewsArticle) (row : list str) (index : nat)
  : eff (list NewsArticle) :=
  if is_truthy (at_index row 0) && is_truthy (at_index row 4) then
    ret (acc ++ [article_of_row row])
  else
    (log (warn (skip_message index)) ;;; ret acc)%eff.

(** [Array.prototype.reduce] with an initial value, from [index] on. *)
Fixpoint reduce_from (index : nat) (rows : list (list str))
         (acc : list NewsArticle) : eff (list NewsArticle) :=
  match rows with
  | [] => ret acc
  | row :: rest =>
      (acc' <- reducer acc row index ;; reduce_from (S index) rest acc')%eff
  end.

(** The response of [fetch], as far as [getNews] looks at it. *)
Record Response := mkResponse {
  ok         : bool;
  statusText : str;
  text       : settled str   (* what [await response.text()] gives *)
}.

(** [getNews]: [fetched] is what the [fetch] promise settles to. *)
Definition getNews (fetched : settled Response) : eff (list NewsArticle) :=
  try_catch
    (response <- await fetched ;;
     (if negb (ok response)
      then throw (Error (lit "Failed to fetch CSV: " ++ statusText response))
      else ret tt) ;;;
     csvText <- await (text response) ;;
     let rows := Csv.parseCSV csvText in
     let dataRows := slice_from 1 rows in
     articles <- reduce_from 0 dataRows [] ;;
     ret articles)%eff
    (fun e =>
       (log (error (lit "Error fetching or parsing news data:") e) ;;;
        ret [])%eff).

End News.

(* ================================================================== *)
(** * The date normaliser ([parseDateString], [formatDate]) *)

Module Dates.

(** The time value of a [Date]: [NaN] for an invalid date, otherwise the
    milliseconds since the epoch. *)
Inductive time_value := NaN | ms (t : Z).

Record JsDate := Date { getTime : time_value }.

Definition isNaN (v : time_value) : bool :=
  match v with NaN => true | ms _ => false end.

(** What the program imports from [date-fns] and from the language: they
    are outside the repository, so the program is modelled over any
    implementation of them.  With the two constant format strings of the
    program and a string argument none of them throws, which leaves the
    [catch] arms of the program without a way in. *)
Class DateLib := {
  now     : JsDate;                          (* [new Date()] *)
  parse   : str -> str -> JsDate -> JsDate;  (* [parse(s, format, reference)] *)
  newDate : str -> JsDate                    (* [new Date(s)] *)
}.

(** [format(date, format)] of [date-fns], which only the card calls. *)
Class DateFormat := {
  format : JsDate -> str -> str
}.

(** What an observer of one call sees: the parsers called, in order, and
    the console lines. *)
Inductive event :=
| call_parse (formatStr : str)
| call_newDate
| print (c : console).

Definition MDY : str := lit "M/d/yyyy".
Definition YMD : str := lit "yyyy-MM-dd".

Section WithLib.
Context {lib : DateLib} {fmt : DateFormat}.

(** [parseDateString] of the page component. *)
Definition parseDateString (dateString : option str)
  : option JsDate * list event :=
  match dateString with
  | None => (None, [])
  | Some [] => (None, [])
  | Some ((_ :: _) as s) =>
      let parsed := parse s MDY now in
      if negb (isNaN (getTime parsed)) then
        (Some parsed, [call_parse MDY])
      else
        let parsed := parse s YMD now in
        if negb (isNaN (getTime parsed)) then
          (Some parsed, [call_parse MDY; call_parse YMD])
        else
          let parsed := newDate s in
          if negb (isNaN (getTime parsed)) then
            (Some parsed, [call_parse MDY; call_parse YMD; call_newDate])
          else
            (None,
             [call_parse MDY; call_parse YMD; call_newDate;
              print (warn (lit "Could not parse date for sorting: " ++ s))])
  end.

(** [formatDate] of the card component: [null] for no date, the
    formatted date, or the raw string back. *)
Definition formatDate (dateString : option str)
  : option str * list event :=
  match dateString with
  | None => (None, [])
  | Some [] => (None, [])
  | Some ((_ :: _) as s) =>
      let parsedMdy := parse s MDY now in
      let (parsedDate, calls) :=
        if negb (isNaN (getTime parsedMdy)) then
          (Some parsedMdy, [call_parse MDY])
        else
          let parsedYmd := parse s YMD now in
          if negb (isNaN (getTime parsedYmd)) then
            (Some parsedYmd, [call_parse MDY; call_parse YMD])
          else
            let parsedIso := newDate s in
            if negb (isNaN (getTime parsedIso)) then
              (Some parsedIso, [call_parse MDY; call_parse YMD; call_newDate])
            else
              (None, [call_parse MDY; call_parse YMD; call_newDate])
      in
      match parsedDate with
      | Some d => (Some (format d (lit "d MMM yyyy")), calls)
      | None =>
          (Some s,
           calls ++ [print (warn (lit "Could not format date: " ++ s))])
      end
  end.

End WithLib.

End Dates.

(* ================================================================== *)
(** * Ordering and partition (the page component [Home]) *)

Module HomePage.
Import News Dates.

(** An article with its derived sort key:
    [{ ...article, parsedDate }]. *)
Record DatedArticle := mkDated {
  article    : NewsArticle;
  parsedDate : option JsDate
}.

(** The time value [compareDesc] reads off an argument; [null] converts
    to an invalid date. *)
Definition time_of (d : option JsDate) : time_value :=
  match d with
  | Some d => getTime d
  | None => NaN
  end.

(** [compareDesc] of [date-fns]: -1 when the left date is the later one,
    1 when it is the earlier one, the difference (zero, or [NaN], which
    [sort] reads as zero) otherwise. *)
Definition compareDesc (dateLeft dateRight : option JsDate) : Z :=
  match time_of dateLeft, time_of dateRight with
  | ms l, ms r =>
      if (l - r >? 0)%Z then (-1)%Z
      else if (l - r <? 0)%Z then 1%Z
      else 0%Z
  | _, _ => 0%Z
  end.

(** What [Home] computes before it renders. *)
Record page := mkPage {
  sortedArticles    : list DatedArticle;
  newestArticles    : list DatedArticle;
  mainArticle       : option DatedArticle;
  sideArticles      : list DatedArticle;
  remainingArticles : list DatedArticle
}.

Section WithLib.
Context {lib : DateLib}.

Definition with_parsedDate (a : NewsArticle) : DatedArticle :=
  {| article := a; parsedDate := fst (parseDateString (date a)) |}.

Definition has_date (a : DatedArticle) : bool :=
  match parsedDate a with Some _ => true | None => false end.

Definition sorted_of (allArticles : list NewsArticle) : list DatedArticle :=
  sort (fun a b => compareDesc (parsedDate a) (parsedDate b))
       (filter has_date (map with_parsedDate allArticles)).

Definition Home (allArticles : list NewsArticle) : page :=
  let sortedArticles := sorted_of allArticles in
  let newestArticles := slice 0 4 sortedArticles in
  {| sortedArticles := sortedArticles;
     newestArticles := newestArticles;
     mainArticle :=
       if (0 <? List.length newestArticles)%nat then nth_error newestArticles 0
       else None;
     sideArticles :=
       if (1 <? List.length newestArticles)%nat then slice_from 1 newestArticles
       else [];
     remainingArticles := slice_from 4 sortedArticles |}.

End WithLib.

End HomePage.

(* ================================================================== *)
(** * The card: image and favicon fallback ([NewsArticleCard]) *)

Module Card.
Import News.

Inductive size := large | small | default.

Definition getImageDimensions (s : size) : nat * nat :=
  match s with
  | large => (800, 500)
  | small => (400, 250)
  | default => (600, 400)
  end.

(** The props of the component. *)
Record props := mkProps {
  article   : NewsArticle;
  card_size : size
}.

(** The state slots of one card. *)
Record card_state := mkCard {
  imageUrl     : str;
  imageError   : bool;
  faviconUrl   : option str;
  faviconError : bool;
  isInView     : bool
}.

Section WithBrowser.
(** Built-ins of the browser: [encodeURIComponent], and the host name
    of [new URL(url)], [None] when the constructor throws. *)
Variable encodeURIComponent : str -> str.
Variable hostname : str -> option str.

(** The placeholder address, seeded by the title and the dimensions. *)
Definition placeholder (p : props) : str :=
  let (width, height) := getImageDimensions (card_size p) in
  lit "https://picsum.photos/seed/"
    ++ encodeURIComponent (News.title (article p))
    ++ lit "/" ++ show_nat width ++ lit "/" ++ show_nat height.

(** [article.imageUrl || placeholder] *)
Definition chosen_image (p : props) : str :=
  match News.imageUrl (article p) with
  | [] => placeholder p
  | c :: r => c :: r
  end.

Definition getFaviconUrl (url : str) : option str :=
  match url with
  | [] => None
  | _ :: _ =>
      match hostname url with
      | Some h =>
          Some (lit "https://www.google.com/s2/favicons?domain=" ++ h
                  ++ lit "&sz=32")
      | None => None
      end
  end.

(** The state of the first render. *)
Definition initial (p : props) : card_state :=
  {| imageUrl := chosen_image p; imageError := false;
     faviconUrl := None; faviconError := false; isInView := false |}.

(** The effect that runs when the article or the size changes. *)
Definition on_props (p : props) (s : card_state) : card_state :=
  {| imageUrl := chosen_image p; imageError := false;
     faviconUrl := getFaviconUrl (News.url (article p));
     faviconError := false; isInView := isInView s |}.

Definition handleImageError (p : props) (s : card_state) : card_state :=
  if negb (imageError s) then
    {| imageUrl := placeholder p; imageError := true;
       faviconUrl := faviconUrl s; faviconError := faviconError s;
       isInView := isInView s |}
  else s.

Definition handleFaviconError (s : card_state) : card_state :=
  {| imageUrl := imageUrl s; imageError := imageError s;
     faviconUrl := faviconUrl s; faviconError := true;
     isInView := isInView s |}.

(** The intersection observer's callback. *)
Definition on_intersect (isIntersecting : bool) (s : card_state) : card_state :=
  if isIntersecting then
    {| imageUrl := imageUrl s; imageError := imageError s;
       faviconUrl := faviconUrl s; faviconError := faviconError s;
       isInView := true |}
  else s.

(** The events a mounted card reacts to while its props stay the same,
    and its reaction. *)
Inductive card_event :=
| ImageLoadFailed
| FaviconLoadFailed
| Intersection (isIntersecting : bool).

Definition react (p : props) (s : card_state) (e : card_event) : card_state :=
  match e with
  | ImageLoadFailed => handleImageError p s
  | FaviconLoadFailed => handleFaviconError s
  | Intersection b => on_intersect b s
  end.

Definition run (p : props) (s : card_state) (es : list card_event) : card_state :=
  fold_left (react p) es s.

(** [unoptimized={imageError}]: the rendered image is optimised unless
    it is the fallback. *)
Definition optimized (s : card_state) : bool := negb (imageError s).

End WithBrowser.

End Card.

(* ================================================================== *)
(** * What the page renders ([Home], the JSX of the page and of the card) *)

Module PageRender.
Import News Dates HomePage.

Section WithLib.
Context {lib : DateLib}.

(** [Home] as the async function it is: it awaits [getNews], then computes
    the page. *)
Definition HomeAsync (fetched : settled Response) : eff page :=
  (allArticles <- getNews fetched ;; ret (Home allArticles))%eff.

End WithLib.

(** The cards of the page, in document order, each with the size it is
    given: the top section (the main article large, the side articles
    small) when there are newest articles, then the grid (default size)
    when there are remaining articles. *)
Definition rendered_cards (p : page) : list (DatedArticle * Card.size) :=
  (if (0 <? List.length (newestArticles p))%nat then
     match mainArticle p with
     | Some m => [(m, Card.large)]
     | None => []
     end
     ++ map (fun a => (a, Card.small)) (sideArticles p)
   else [])
  ++ (if (0 <? List.length (remainingArticles p))%nat then
        map (fun a => (a, Card.default)) (remainingArticles p)
      else []).

(** The paragraph shown in place of the top section. *)
Definition shows_empty_message (p : page) : bool :=
  negb (0 <? List.length (newestArticles p))%nat.

(** The separator before the grid. *)
Definition shows_separator (p : page) : bool :=
  (0 <? List.length (remainingArticles p))%nat.

(** The key of a side or grid card:
    [article.url || prefix-index]. *)
Definition card_key (a : DatedArticle) (prefix : str) (index : nat) : str :=
  match url (article a) with
  | [] => prefix ++ lit "-" ++ show_nat index
  | c :: r => c :: r
  end.

(** [faviconUrl && !faviconError]: the favicon overlay is rendered. *)
Definition favicon_shown (s : Card.card_state) : bool :=
  is_truthy (Card.faviconUrl s) && negb (Card.faviconError s).

End PageRender.

(* ================================================================== *)
(** * Vocabulary of the properties *)

(** How the feed writes fields and rows, and the predicates the statements
    below use on inputs.  None of this is used by the program. *)
Module FeedText.

(** Every quote of the content written twice. *)
Fixpoint double_quotes (content : str) : str :=
  match content with
  | [] => []
  | c :: r =>
      if (c =? QUOTE)%N then QUOTE :: QUOTE :: double_quotes r
      else c :: double_quotes r
  end.

(** A field written as a quoted field: its quotes doubled, the whole
    between two quotes. *)
Definition quoted (content : str) : str :=
  QUOTE :: double_quotes content ++ [QUOTE].

Definition starts_with_quote (s : str) : bool :=
  match s with
  | c :: _ => (c =? QUOTE)%N
  | [] => false
  end.

(** The content has a character that is not a quote. *)
Definition has_other_char (content : str) : bool :=
  existsb (fun c => negb (c =? QUOTE)%N) content.

Definition no_quote (s : str) : bool :=
  forallb (fun c => negb (c =? QUOTE)%N) s.

Definition no_lf (s : str) : bool :=
  forallb (fun c => negb (c =? LF)%N) s.

(** The field at a column of a row, empty when the row is too short. *)
Definition column (k : nat) (row : list str) : str := nth k row [].

(** Title and address both present: columns 0 and 4 are not empty once
    trimmed. *)
Definition has_title_and_url (row : list str) : bool :=
  truthy (trim (column 0 row)) && truthy (trim (column 4 row)).

(** The positions, counted from [index], of the rows without title or
    address. *)
Fixpoint skipped_from (index : nat) (rows : list (list str)) : list nat :=
  match rows with
  | [] => []
  | row :: rest =>
      if has_title_and_url row then skipped_from (S index) rest
      else index :: skipped_from (S index) rest
  end.

End FeedText.
Import FeedText.

(** What the statements on the ingestion use. *)
Module IngestionText.
Import News.

(** The fetch did not give a text to parse: the promise of [fetch] was
    rejected (network error, exception), the status was not a success,
    or the body could not be read. *)
Definition fetch_failed (fetched : settled Response) : bool :=
  match fetched with
  | rejected _ => true
  | fulfilled response =>
      negb (ok response)
      || match text response with
         | rejected _ => true
         | fulfilled _ => false
         end
  end.

Definition trimmed (f : str) : Prop := trim f = f.

End IngestionText.

(** What the statements on the date normaliser use. *)
Module DateText.
Import Dates.

Definition valid (d : JsDate) : bool := negb (isNaN (getTime d)).

Section WithLib.
Context {lib : DateLib}.

(** The three formats in their priority order, each with the call that
    tries it and with what that call gives on [s]. *)
Definition attempts (s : str) : list (event * JsDate) :=
  [ (call_parse MDY, parse s MDY now);
    (call_parse YMD, parse s YMD now);
    (call_newDate, newDate s) ].

(** The first valid date of a list of attempts. *)
Fixpoint first_valid (tries : list (event * JsDate)) : option JsDate :=
  match tries with
  | [] => None
  | (_, d) :: rest => if valid d then Some d else first_valid rest
  end.

(** The calls made when the attempts are tried in order and the first
    valid date stops the search. *)
Fixpoint calls_until_valid (tries : list (event * JsDate)) : list event :=
  match tries with
  | [] => []
  | (call, d) :: rest =>
      if valid d then [call] else call :: calls_until_valid rest
  end.

(** Some format gives a valid date on [s]. *)
Definition recognized (s : str) : bool :=
  existsb (fun t => valid (snd t)) (attempts s).

End WithLib.

End DateText.

(** What the statements on the ordering use. *)
Module OrderText.
Import News Dates HomePage DateText.

(** The normalised instant of a dated article, in milliseconds. *)
Definition instant (a : DatedArticle) : Z :=
  match time_of (parsedDate a) with
  | ms t => t
  | NaN => 0%Z
  end.

Definition has_instant (a : DatedArticle) : Prop :=
  exists t, time_of (parsedDate a) = ms t.

Section WithLib.
Context {lib : DateLib}.

(** The article has a date that some format recognises. *)
Definition parseable (a : NewsArticle) : bool :=
  match date a with
  | Some (c :: r) => recognized (c :: r)
  | _ => false
  end.

End WithLib.

End OrderText.

(** The date library as the specification describes it.  The parsers are
    third-party code ([date-fns], the engine's [Date]); the specification
    names the three formats they accept.  It names no zone: a wall-clock
    time is read in the calendar of the host, whose offset from UTC is a
    parameter. *)
Module SpecDates.
Import Dates.

Definition SLASH : code_unit := 47%N.
Definition DASH  : code_unit := 45%N.
Definition COLON : code_unit := 58%N.
Definition SPACE : code_unit := 32%N.
Definition LETTER_T : code_unit := 84%N.

Fixpoint str_eqb (a b : str) : bool :=
  match a, b with
  | [], [] => true
  | x :: a', y :: b' => (x =? y)%N && str_eqb a' b'
  | _, _ => false
  end.

Fixpoint digits_from (acc : Z) (s : str) : option Z :=
  match s with
  | [] => Some acc
  | c :: r =>
      if ((48 <=? c) && (c <=? 57))%N
      then digits_from (10 * acc + Z.of_N (c - 48)) r
      else None
  end.

(** A decimal number of [lo] to [hi] digits. *)
Definition number (lo hi : nat) (s : str) : option Z :=
  if (lo <=? List.length s)%nat && (List.length s <=? hi)%nat
  then digits_from 0 s else None.

Definition leap (y : Z) : bool :=
  ((y mod 4 =? 0) && negb (y mod 100 =? 0) || (y mod 400 =? 0))%Z.

Definition days_in_month (y m : Z) : Z :=
  if (m =? 2)%Z then (if leap y then 29 else 28)%Z
  else if ((m =? 4) || (m =? 6) || (m =? 9) || (m =? 11))%Z then 30%Z
  else 31%Z.

(** The number of the day [y]-[m]-[d], day 0 being 1970-01-01. *)
Definition days_from_civil (y m d : Z) : Z :=
  let y' := if (m <=? 2)%Z then (y - 1)%Z else y in
  let era := (y' / 400)%Z in
  let yoe := (y' - era * 400)%Z in
  let mp := ((m + 9) mod 12)%Z in
  let doy := ((153 * mp + 2) / 5 + d - 1)%Z in
  let doe := (yoe * 365 + yoe / 4 - yoe / 100 + doy)%Z in
  (era * 146097 + doe - 719468)%Z.

Definition ms_per_day : Z := 86400000%Z.

Section Host.
(** The offset of the host's calendar from UTC, in milliseconds. *)
Variable offset : Z.

(** The instant of a wall-clock time of the host's calendar, invalid when
    the fields are out of range. *)
Definition instant_of (y m d hh mm ss : Z) : JsDate :=
  if ((1 <=? m) && (m <=? 12) && (1 <=? d) && (d <=? days_in_month y m)
      && (hh <=? 23) && (mm <=? 59) && (ss <=? 59))%Z
  then Date (ms (days_from_civil y m d * ms_per_day
                 + ((hh * 60 + mm) * 60 + ss) * 1000 - offset))
  else Date NaN.

(** The day of the host's calendar an instant falls on. *)
Definition local_day (t : Z) : Z := ((t + offset) / ms_per_day)%Z.

Definition date_of_fields (y m d : option Z) : JsDate :=
  match y, m, d with
  | Some y, Some m, Some d => instant_of y m d 0 0 0
  | _, _, _ => Date NaN
  end.

(** Modelled from the spec: the format month/day/4-digit-year of [parse],
    at midnight of the host's calendar. *)
Definition parse_mdy (s : str) : JsDate :=
  match split SLASH s with
  | [m; d; y] => date_of_fields (number 4 4 y) (number 1 2 m) (number 1 2 d)
  | _ => Date NaN
  end.

(** Modelled from the spec: the format
    4-digit-year-2-digit-month-2-digit-day of [parse], at midnight of the
    host's calendar. *)
Definition parse_ymd (s : str) : JsDate :=
  match split DASH s with
  | [y; m; d] => date_of_fields (number 4 4 y) (number 2 2 m) (number 2 2 d)
  | _ => Date NaN
  end.

Definition time_of_day (s : str) : option (Z * Z * Z) :=
  match split COLON s with
  | [hh; mm; ss] =>
      match number 2 2 hh, number 2 2 mm, number 2 2 ss with
      | Some hh, Some mm, Some ss => Some (hh, mm, ss)
      | _, _, _ => None
      end
  | _ => None
  end.

(** Modelled from the spec: the generic parse of [new Date(s)], which
    accepts a full timestamp, the date and the time of day separated by a
    space or by the letter T, read in the host's calendar. *)
Definition parse_generic (s : str) : JsDate :=
  let parts :=
    match split SPACE s with
    | [d; t] => Some (d, t)
    | _ => match split LETTER_T s with
           | [d; t] => Some (d, t)
           | _ => None
           end
    end in
  match parts with
  | Some (d, t) =>
      match split DASH d, time_of_day t with
      | [y; m; dd], Some (hh, mm, ss) =>
          match number 4 4 y, number 2 2 m, number 2 2 dd with
          | Some y, Some m, Some dd => instant_of y m dd hh mm ss
          | _, _, _ => Date NaN
          end
      | _, _ => Date NaN
      end
  | None => Date NaN
  end.

(** Modelled from the spec: the date library of the normaliser, namely
    [parse] on the two format strings of the program and [new Date(s)]. *)
Definition spec_lib : DateLib :=
  {| now := Date (ms 0);
     parse := fun s formatStr _ =>
                if str_eqb formatStr MDY then parse_mdy s
                else if str_eqb formatStr YMD then parse_ymd s
                else Date NaN;
     newDate := parse_generic |}.

End Host.

End SpecDates.

(** A stand-in for the date library, for running the page on concrete
    lists: no format of [parse] matches, and [new Date(s)] reads [s] as a
    decimal number of milliseconds. *)
Module NumeralDates.
Import Dates.

Definition numeral_date (s : str) : JsDate :=
  match s with
  | [] => Date NaN
  | _ :: _ =>
      match SpecDates.digits_from 0 s with
      | Some t => Date (ms t)
      | None => Date NaN
      end
  end.

Definition numeral_lib : DateLib :=
  {| now := Date (ms 0);
     parse := fun _ _ _ => Date NaN;
     newDate := numeral_date |}.

(** A feed article with a title and a date only. *)
Definition dated (t : string) (d : option string) : News.NewsArticle :=
  News.mkArticle (lit t) [] (lit "#") [] (lit "General") []
                 (option_map lit d).

End NumeralDates.

(** What the statements on the card use. *)
Module CardText.
Import News Card.

Definition is_image_failure (e : card_event) : bool :=
  match e with
  | ImageLoadFailed => true
  | _ => false
  end.

Section WithBrowser.
Variable encodeURIComponent : str -> str.

(** The number of times [setImageUrl] is called from the error handler
    along a run: once for each image failure that finds the flag unset. *)
Fixpoint swaps (p : props) (s : card_state) (es : list card_event) : nat :=
  match es with
  | [] => 0
  | e :: rest =>
      (if is_image_failure e && negb (imageError s) then 1 else 0)
      + swaps p (react encodeURIComponent p s e) rest
  end.

End WithBrowser.

End CardText.

(** How a row of the feed is written, field by field. *)
Module RowText.

Definition CR : code_unit := 13%N.   (* the carriage return *)

Definition no_comma (s : str) : bool :=
  forallb (fun c => negb (c =? COMMA)%N) s.

Definition count_commas (s : str) : nat :=
  List.length (filter (fun c => (c =? COMMA)%N) s).

(** A field is written as it is or between quotes. *)
Inductive field_text :=
| Plain (content : str)
| Quoted (content : str).

Definition field_content (f : field_text) : str :=
  match f with
  | Plain content => content
  | Quoted content => content
  end.

Definition write_field (f : field_text) : str :=
  match f with
  | Plain content => content
  | Quoted content => quoted content
  end.

(** A plain field has neither quote nor comma; a quoted field has a
    character that is not a quote. *)
Definition well_written (f : field_text) : bool :=
  match f with
  | Plain content => no_quote content && no_comma content
  | Quoted content => has_other_char content
  end.

(** The fields of a row, a comma between two of them. *)
Fixpoint join_comma (fs : list str) : str :=
  match fs with
  | [] => []
  | [f] => f
  | f :: rest => f ++ COMMA :: join_comma rest
  end.

Definition head_is_ws (f : str) : bool :=
  match f with
  | c :: _ => is_ws c
  | [] => false
  end.

Definition last_is_ws (f : str) : bool := head_is_ws (rev f).

End RowText.

(** The events of a card, sorted by the slot they touch. *)
Module CardEvents.
Import Card.

Definition is_favicon_failure (e : card_event) : bool :=
  match e with
  | FaviconLoadFailed => true
  | _ => false
  end.

Definition is_entering_view (e : card_event) : bool :=
  match e with
  | Intersection b => b
  | _ => false
  end.

End CardEvents.

(** What is said of a returned article. *)
Module ArticleText.
Import News.

(** What every article built from a row of trimmed fields satisfies. *)
Definition well_formed_article (a : NewsArticle) : Prop :=
  summary a <> [] /\ source a <> []
  /\ category a = lit "General"
  /\ date a <> Some []
  /\ trim (title a) = title a /\ trim (url a) = url a
  /\ trim (imageUrl a) = imageUrl a
  /\ trim (summary a) = summary a /\ trim (source a) = source a
  /\ (forall d, date a = Some d -> trim d = d).

End ArticleText.

(** The events of the date functions that are console lines. *)
Module DateEvents.
Import Dates.

Definition is_print (e : event) : bool :=
  match e with
  | print _ => true
  | _ => false
  end.

End DateEvents.

(* ================================================================== *)
(** * Facts on strings *)

Module JsStringFacts.

Lemma trimStart_app_keep (l m : str) (c : code_unit) :
  is_ws c = false -> trimStart (l ++ c :: m) = trimStart l ++ c :: m.
Proof.
  intros Hc. induction l as [|x l IH]; simpl.
  - now rewrite Hc.
  - destruct (is_ws x); [exact IH | reflexivity].
Qed.

Lemma trimEnd_cons_keep (c : code_unit) (r : str) :
  is_ws c = false -> trimEnd (c :: r) = c :: trimEnd r.
Proof.
  intros Hc. unfold trimEnd. simpl rev.
  rewrite (trimStart_app_keep (rev r) [] c Hc).
  now rewrite rev_app_distr.
Qed.

Lemma trimStart_idem (s : str) : trimStart (trimStart s) = trimStart s.
Proof.
  induction s as [|c r IH]; simpl; [reflexivity|].
  destruct (is_ws c) eqn:Hc; [exact IH|]. simpl. now rewrite Hc.
Qed.

(** What [trimStart] returns is empty or starts with a character that
    stays. *)
Lemma trimStart_head (s : str) :
  trimStart s = [] \/ exists c r, trimStart s = c :: r /\ is_ws c = false.
Proof.
  induction s as [|c r IH]; simpl; [now left|].
  destruct (is_ws c) eqn:Hc; [exact IH|]. right. now exists c, r.
Qed.

Lemma trimEnd_idem (s : str) : trimEnd (trimEnd s) = trimEnd s.
Proof.
  unfold trimEnd. rewrite rev_involutive. now rewrite trimStart_idem.
Qed.

Lemma trim_idem (s : str) : trim (trim s) = trim s.
Proof.
  unfold trim.
  destruct (trimStart_head s) as [E | (c & r & E & Hc)]; rewrite E.
  - reflexivity.
  - rewrite (trimEnd_cons_keep c r Hc). simpl. rewrite Hc.
    rewrite <- (trimEnd_cons_keep c r Hc). apply trimEnd_idem.
Qed.

Lemma split_lf_not_nil (s : str) : split_lf s <> [].
Proof.
  unfold split_lf. destruct s as [|c r]; simpl; [discriminate|].
  destruct (c =? LF)%N; [discriminate|].
  destruct (split LF r); discriminate.
Qed.

Lemma split_lf_no_lf (l : str) : no_lf l = true -> split_lf l = [l].
Proof.
  unfold split_lf. induction l as [|c r IH]; simpl; [reflexivity|].
  intros H. apply andb_true_iff in H as [Hc Hr].
  apply negb_true_iff in Hc. rewrite Hc, (IH Hr). reflexivity.
Qed.

Lemma split_lf_app (l rest : str) :
  no_lf l = true -> split_lf (l ++ LF :: rest) = l :: split_lf rest.
Proof.
  unfold split_lf. induction l as [|c r IH]; simpl; [reflexivity|].
  intros H. apply andb_true_iff in H as [Hc Hr].
  apply negb_true_iff in Hc. rewrite Hc, (IH Hr). reflexivity.
Qed.

(** Splitting undoes joining, for lines without a line feed. *)
Lemma split_lf_join_lf (ls : list str) :
  ls <> [] -> forallb no_lf ls = true -> split_lf (join_lf ls) = ls.
Proof.
  induction ls as [|l rest IH]; [congruence|].
  intros _ H. simpl in H. apply andb_true_iff in H as [Hl Hrest].
  destruct rest as [|l' rest'].
  - simpl. now apply split_lf_no_lf.
  - change (join_lf (l :: l' :: rest')) with (l ++ LF :: join_lf (l' :: rest')).
    rewrite (split_lf_app l _ Hl). f_equal. apply IH; [discriminate | exact Hrest].
Qed.

End JsStringFacts.

(* ================================================================== *)
(** * The per-line scan of [parseCSV] *)

Module CsvFacts.
Import Csv JsStringFacts.

(** Two quotes in a row: one quote into the current field, both consumed,
    the flag as it was, whatever it was. *)
Lemma scan_doubled (vs : list str) (cur : str) (q : bool) (rest : str) :
  scan (mkScan vs cur q) (QUOTE :: QUOTE :: rest)
  = scan (mkScan vs (cur ++ [QUOTE]) q) rest.
Proof. reflexivity. Qed.

(** A quote that no quote follows flips the flag. *)
Lemma scan_lone_quote (vs : list str) (cur : str) (q : bool) (rest : str) :
  starts_with_quote rest = false ->
  scan (mkScan vs cur q) (QUOTE :: rest) = scan (mkScan vs cur (negb q)) rest.
Proof.
  destruct rest as [|c r]; simpl; [reflexivity|].
  intros ->. reflexivity.
Qed.

(** A character that is not a quote, met inside a quoted field, is
    added to the current field; so is a comma. *)
Lemma scan_inside_char (vs : list str) (cur : str) (c : code_unit) (rest : str) :
  (c =? QUOTE)%N = false ->
  scan (mkScan vs cur true) (c :: rest) = scan (mkScan vs (cur ++ [c]) true) rest.
Proof.
  intros Hc. simpl. rewrite Hc. rewrite andb_false_r. reflexivity.
Qed.

(** Once inside a quoted field, the doubled content up to the closing
    quote is read back as the content. *)
Lemma scan_inside_content (content : str) :
  forall (vs : list str) (cur rest : str),
    starts_with_quote rest = false ->
    scan (mkScan vs cur true) (double_quotes content ++ QUOTE :: rest)
    = scan (mkScan vs (cur ++ content) false) rest.
Proof.
  induction content as [|c r IH]; intros vs cur rest Hrest.
  - simpl double_quotes. simpl app. rewrite app_nil_r.
    now apply scan_lone_quote.
  - simpl double_quotes. destruct (c =? QUOTE)%N eqn:Hc.
    + apply N.eqb_eq in Hc. subst c. simpl app. rewrite scan_doubled.
      rewrite (IH vs (cur ++ [QUOTE]) rest Hrest).
      now rewrite <- app_assoc.
    + simpl app. rewrite (scan_inside_char vs cur c _ Hc).
      rewrite (IH vs (cur ++ [c]) rest Hrest).
      now rewrite <- app_assoc.
Qed.

(** A quoted field whose content is not made of quotes alone is read
    back as its content, from outside a quoted field to outside. *)
Lemma scan_quoted (content : str) :
  forall (vs : list str) (cur rest : str),
    has_other_char content = true ->
    starts_with_quote rest = false ->
    scan (mkScan vs cur false) (quoted content ++ rest)
    = scan (mkScan vs (cur ++ content) false) rest.
Proof.
  unfold quoted.
  induction content as [|c r IH]; intros vs cur rest Hother Hrest.
  - discriminate.
  - simpl in Hother. simpl double_quotes.
    destruct (c =? QUOTE)%N eqn:Hc.
    + apply N.eqb_eq in Hc. subst c. simpl in Hother.
      simpl app. rewrite scan_doubled.
      specialize (IH vs (cur ++ [QUOTE]) rest Hother Hrest).
      simpl app in IH. rewrite IH. now rewrite <- app_assoc.
    + simpl app. rewrite <- app_assoc. simpl app.
      rewrite scan_lone_quote by (simpl; exact Hc).
      simpl negb.
      change (c :: double_quotes r ++ QUOTE :: rest)
        with ((c :: double_quotes r) ++ QUOTE :: rest).
      replace (c :: double_quotes r) with (double_quotes (c :: r))
        by (simpl; now rewrite Hc).
      now apply scan_inside_content.
Qed.

(** Induction for a scan that may consume two characters at once. *)
Lemma scan_ind (P : str -> Prop) :
  (forall line,
      (forall shorter, List.length shorter < List.length line -> P shorter) ->
      P line) ->
  forall line, P line.
Proof.
  intros step line. remember (List.length line) as n eqn:En.
  revert line En. induction n as [n IHn] using lt_wf_ind.
  intros line ->. apply step. intros shorter Hlt.
  now apply (IHn (List.length shorter) Hlt).
Qed.

(** Every line gives at least one field. *)
Lemma parseLine_length (line : str) : 1 <= List.length (parseLine line).
Proof.
  unfold parseLine, finish. rewrite length_app. simpl. lia.
Qed.

(** Every field that [parseLine] returns is trimmed. *)
Lemma scan_values_trimmed (line : str) :
  forall st,
    Forall (fun f => trim f = f) (values st) ->
    Forall (fun f => trim f = f) (values (scan st line)).
Proof.
  induction line as [line IH] using scan_ind.
  intros st Hst. destruct line as [|c rest]; [exact Hst|].
  simpl scan. destruct (c =? QUOTE)%N.
  - destruct rest as [|n rest'].
    + exact Hst.
    + destruct (n =? QUOTE)%N; apply IH; simpl; auto.
  - destruct ((c =? COMMA)%N && negb (inQuotes st)); apply IH; simpl; auto.
    apply Forall_app. split; [exact Hst|]. constructor; [apply trim_idem | constructor].
Qed.

Lemma parseLine_trimmed (line : str) :
  Forall (fun f => trim f = f) (parseLine line).
Proof.
  unfold parseLine, finish. apply Forall_app. split.
  - apply scan_values_trimmed. constructor.
  - constructor; [apply trim_idem | constructor].
Qed.

Lemma parseCSV_trimmed (csvText : str) :
  Forall (Forall (fun f => trim f = f)) (parseCSV csvText).
Proof.
  unfold parseCSV. apply Forall_forall. intros row Hrow.
  apply in_map_iff in Hrow as (line & <- & _). apply parseLine_trimmed.
Qed.

Lemma parseCSV_not_nil (csvText : str) : parseCSV csvText <> [].
Proof.
  unfold parseCSV. intros H. apply map_eq_nil in H.
  now apply (split_lf_not_nil (trim csvText)).
Qed.

End CsvFacts.

(* ================================================================== *)
(** * Properties of the feed parser *)

Module FeedParserSpec.
Import Csv JsStringFacts CsvFacts.

Lemma double_quotes_app (a b : str) :
  double_quotes (a ++ b) = double_quotes a ++ double_quotes b.
Proof.
  induction a as [|c r IH]; simpl; [reflexivity|].
  destruct (c =? QUOTE)%N; simpl; now rewrite IH.
Qed.

(** The quoted field whose content has a quote after [pre] is the text
    with a doubled quote between the doubled [pre] and the doubled
    [post]. *)
Lemma quoted_embedded (pre post : str) :
  quoted (pre ++ QUOTE :: post)
  = QUOTE :: double_quotes pre ++ QUOTE :: QUOTE :: double_quotes post ++ [QUOTE].
Proof.
  unfold quoted. rewrite double_quotes_app. simpl.
  now rewrite <- app_assoc.
Qed.

Lemma has_other_char_app (a b : str) (c : code_unit) :
  has_other_char (a ++ b) = true -> has_other_char (a ++ c :: b) = true.
Proof.
  unfold has_other_char. rewrite !existsb_app. simpl.
  intros H. apply orb_true_iff in H as [H | H]; rewrite H;
    [reflexivity | now rewrite !orb_true_r].
Qed.

(** Inside a quoted field, characters other than quotes pile up in the
    current field, commas included. *)
Lemma scan_inside_plain (body : str) :
  forall (vs : list str) (cur : str),
    no_quote body = true ->
    scan (mkScan vs cur true) body = mkScan vs (cur ++ body) true.
Proof.
  induction body as [|c r IH]; intros vs cur H.
  - now rewrite app_nil_r.
  - simpl in H. apply andb_true_iff in H as [Hc Hr].
    apply negb_true_iff in Hc.
    rewrite (scan_inside_char vs cur c r Hc), (IH vs (cur ++ [c]) Hr).
    now rewrite <- app_assoc.
Qed.

(** ** C1 *)

(** C1 (as amended).  In the scan of a line, a doubled quote met inside a
    quoted field puts exactly one quote into the current field and leaves
    the flag set, and a quote that no quote follows flips the flag;
    so a quoted field with an embedded doubled quote and at least one
    character that is not a quote is decoded to its content, with one
    quote where the doubled quote stood (and trimmed when it is
    emitted), whatever was scanned before and whatever follows the
    closing quote. *)
Theorem doubled_quote_in_quoted_field
    (vs : list str) (cur pre post rest : str) :
  has_other_char (pre ++ post) = true ->
  starts_with_quote rest = false ->
  (forall rest',
      scan (mkScan vs cur true) (QUOTE :: QUOTE :: rest')
      = scan (mkScan vs (cur ++ [QUOTE]) true) rest')
  /\ (forall q,
      scan (mkScan vs cur q) (QUOTE :: rest)
      = scan (mkScan vs cur (negb q)) rest)
  /\ scan (mkScan vs cur false)
          (QUOTE :: double_quotes pre ++ QUOTE :: QUOTE
             :: double_quotes post ++ QUOTE :: rest)
     = scan (mkScan vs (cur ++ pre ++ QUOTE :: post) false) rest
  /\ parseLine (QUOTE :: double_quotes pre ++ QUOTE :: QUOTE
                  :: double_quotes post ++ [QUOTE])
     = [trim (pre ++ QUOTE :: post)].
Proof.
  intros Hother Hrest.
  pose proof (has_other_char_app pre post QUOTE Hother) as Hcontent.
  split; [intros rest'; apply scan_doubled|].
  split; [intros q; now apply scan_lone_quote|].
  split.
  - pose proof (scan_quoted (pre ++ QUOTE :: post) vs cur rest Hcontent Hrest) as E.
    rewrite quoted_embedded in E.
    replace ((QUOTE :: double_quotes pre ++ QUOTE :: QUOTE
                :: double_quotes post ++ [QUOTE]) ++ rest)
      with (QUOTE :: double_quotes pre ++ QUOTE :: QUOTE
              :: double_quotes post ++ QUOTE :: rest) in E.
    + exact E.
    + simpl. rewrite <- !app_assoc. simpl. now rewrite <- !app_assoc.
  - pose proof (scan_quoted (pre ++ QUOTE :: post) [] [] [] Hcontent eq_refl) as E.
    rewrite app_nil_r, quoted_embedded in E.
    unfold parseLine, init. rewrite E. reflexivity.
Qed.

(** The theorem at the field made of [say ], a quote and [hi], written
    quoted, followed by a second field. *)
Lemma doubled_quote_in_quoted_field_witness :
  has_other_char (lit "say " ++ lit "hi") = true
  /\ starts_with_quote (lit ",x") = false
  /\ scan (mkScan [] [] false)
          (QUOTE :: double_quotes (lit "say ") ++ QUOTE :: QUOTE
             :: double_quotes (lit "hi") ++ QUOTE :: lit ",x")
     = scan (mkScan [] ([] ++ lit "say " ++ QUOTE :: lit "hi") false) (lit ",x")
  /\ parseLine (QUOTE :: double_quotes (lit "say ") ++ QUOTE :: QUOTE
                  :: double_quotes (lit "hi") ++ [QUOTE])
     = [lit "say " ++ QUOTE :: lit "hi"].
Proof.
  destruct (doubled_quote_in_quoted_field [] [] (lit "say ") (lit "hi") (lit ",x")
              eq_refl eq_refl) as (_ & _ & H3 & H4).
  split; [reflexivity|]. split; [reflexivity|].
  split; [exact H3 | rewrite H4; reflexivity].
Defined.

(** C1 as stated fails: the quoted field whose content is one quote,
    written as four quotes, is decoded to two quotes. *)
Lemma doubled_quote_alone_counterexample :
  parseLine [QUOTE; QUOTE; QUOTE; QUOTE] = [[QUOTE; QUOTE]]
  /\ ~ (forall pre post : str,
          parseLine (QUOTE :: double_quotes pre ++ QUOTE :: QUOTE
                       :: double_quotes post ++ [QUOTE])
          = [trim (pre ++ QUOTE :: post)]).
Proof.
  split; [reflexivity|].
  intros H. specialize (H [] []). vm_compute in H. discriminate H.
Qed.

(** ** C9 *)

(** C9.  The doubled-quote rule does not look at the flag: two quotes in
    a row met outside a quoted field put one quote into the current field
    and leave the scanner outside; so the empty quoted field is decoded
    to the string made of one quote, not to the empty string, alone on
    its line or as a field of a row. *)
Theorem doubled_quote_outside_quoted_field :
  (forall (vs : list str) (cur rest : str),
      scan (mkScan vs cur false) (QUOTE :: QUOTE :: rest)
      = scan (mkScan vs (cur ++ [QUOTE]) false) rest)
  /\ scan init (quoted []) = mkScan [] [QUOTE] false
  /\ parseLine (quoted []) = [[QUOTE]]
  /\ parseLine (quoted []) <> [[]]
  /\ parseCSV (lit "t,u" ++ LF :: lit "a," ++ quoted [] ++ lit ",b")
     = [[lit "t"; lit "u"]; [lit "a"; [QUOTE]; lit "b"]].
Proof.
  split; [intros; apply scan_doubled|].
  repeat split; try reflexivity. discriminate.
Qed.

(** ** C10 *)

(** C10.  Each line is parsed on its own, from a state whose flag is
    unset: for a text of lines [ls] (no line feed inside a line, no white
    space around the text) the rows are the lines' own rows, row [k]
    depending on line [k] alone; a line that ends inside a quoted field
    that is never closed still gives its last field, trimmed; and every
    line, the empty one too, gives at least one field. *)
Theorem lines_parsed_independently (ls : list str) (body : str) :
  ls <> [] ->
  forallb no_lf ls = true ->
  trim (join_lf ls) = join_lf ls ->
  no_quote body = true ->
  parseCSV (join_lf ls)
  = map (fun line => finish (scan (mkScan [] [] false) line)) ls
  /\ (forall k line,
         nth_error ls k = Some line ->
         nth_error (parseCSV (join_lf ls)) k = Some (parseLine line))
  /\ inQuotes (scan init (QUOTE :: body)) = true
  /\ parseLine (QUOTE :: body) = [trim body]
  /\ parseLine [] = [[]]
  /\ (forall csvText,
         Forall (fun row => 1 <= List.length row) (parseCSV csvText)).
Proof.
  intros Hne Hlf Htrim Hbody.
  assert (E : parseCSV (join_lf ls) = map parseLine ls).
  { unfold parseCSV. rewrite Htrim. now rewrite split_lf_join_lf. }
  split; [exact E|].
  split.
  { intros k line Hk. rewrite E. now apply map_nth_error. }
  assert (S0 : scan init (QUOTE :: body) = mkScan [] body true).
  { unfold init. destruct body as [|c r].
    - reflexivity.
    - simpl in Hbody. apply andb_true_iff in Hbody as [Hc Hr].
      apply negb_true_iff in Hc.
      rewrite scan_lone_quote by (simpl; exact Hc). simpl negb.
      rewrite scan_inside_plain; [reflexivity|].
      simpl. now rewrite Hc, Hr. }
  split; [now rewrite S0|].
  split; [unfold parseLine; now rewrite S0|].
  split; [reflexivity|].
  intros csvText. unfold parseCSV. apply Forall_forall. intros row Hrow.
  apply in_map_iff in Hrow as (line & <- & _). apply parseLine_length.
Qed.

(** The theorem at a text of three lines, the second one ending inside a
    quoted field: the third line's comma still separates two fields. *)
Lemma lines_parsed_independently_witness :
  let ls := [lit "t,u"; QUOTE :: lit "a,b"; lit "c,d"] in
  ls <> []
  /\ forallb no_lf ls = true
  /\ trim (join_lf ls) = join_lf ls
  /\ no_quote (lit "a, b ") = true
  /\ parseCSV (join_lf ls)
     = [[lit "t"; lit "u"]; [lit "a,b"]; [lit "c"; lit "d"]]
  /\ parseLine (QUOTE :: lit "a, b ") = [lit "a, b"].
Proof.
  intros ls.
  destruct (lines_parsed_independently ls (lit "a, b ")
              ltac:(discriminate) eq_refl eq_refl eq_refl)
    as (H1 & _ & _ & H4 & _).
  split; [discriminate|]. split; [reflexivity|]. split; [reflexivity|].
  split; [reflexivity|].
  split; [rewrite H1; reflexivity | rewrite H4; reflexivity].
Defined.

End FeedParserSpec.

(* ================================================================== *)
(** * Properties of the ingestion *)

Module IngestionSpec.
Import Csv News IngestionText JsStringFacts CsvFacts.

Lemma is_truthy_column (row : list str) :
  forall k, is_truthy (at_index row k) = truthy (column k row).
Proof.
  unfold at_index, column.
  induction row as [|f row IH]; intros [|k]; simpl; try reflexivity.
  apply IH.
Qed.

Lemma column_trimmed (row : list str) :
  Forall trimmed row -> forall k, trim (column k row) = column k row.
Proof.
  unfold column. induction 1 as [|f row Hf _ IH]; intros [|k]; simpl;
    try reflexivity; [exact Hf | apply IH].
Qed.

(** On a row of trimmed fields the test of the program is the test on
    the trimmed columns. *)
Lemma essential_fields (row : list str) :
  Forall trimmed row ->
  is_truthy (at_index row 0) && is_truthy (at_index row 4)
  = has_title_and_url row.
Proof.
  intros H. unfold has_title_and_url.
  now rewrite !is_truthy_column, !(column_trimmed row H).
Qed.

Lemma or_else_column (row : list str) (d : str) :
  forall k,
    or_else (at_index row k) d
    = if truthy (column k row) then column k row else d.
Proof.
  unfold at_index, column.
  induction row as [|f row IH]; intros [|k]; simpl; try reflexivity.
  - now destruct f.
  - apply IH.
Qed.

Lemma or_undefined_column (row : list str) :
  forall k,
    or_undefined (at_index row k)
    = if truthy (column k row) then Some (column k row) else None.
Proof.
  unfold at_index, column.
  induction row as [|f row IH]; intros [|k]; simpl; try reflexivity.
  - now destruct f.
  - apply IH.
Qed.

Lemma truthy_not_nil (s : str) : truthy s = true <-> s <> [].
Proof. destruct s; simpl; split; congruence. Qed.

(** The fold keeps the accumulator in front, adds one article per row
    with title and address, in order, and prints one warning per other
    row, numbered from the row's position. *)
Lemma reduce_from_spec (rows : list (list str)) :
  Forall (Forall trimmed) rows ->
  forall index acc,
    reduce_from index rows acc
    = (fulfilled (acc ++ map article_of_row (filter has_title_and_url rows)),
       map (fun i => warn (skip_message i)) (skipped_from index rows)).
Proof.
  induction 1 as [|row rows Hrow _ IH]; intros index acc.
  - simpl. now rewrite app_nil_r.
  - simpl reduce_from. unfold reducer.
    rewrite (essential_fields row Hrow). simpl filter. simpl skipped_from.
    destruct (has_title_and_url row).
    + unfold ret, bind. rewrite IH. simpl. now rewrite <- app_assoc.
    + unfold ret, log, bind. rewrite IH. reflexivity.
Qed.

(** Every row is either kept or skipped. *)
Lemma kept_plus_skipped (rows : list (list str)) :
  forall index,
    List.length (filter has_title_and_url rows)
    + List.length (skipped_from index rows)
    = List.length rows.
Proof.
  induction rows as [|row rows IH]; intros index; simpl; [reflexivity|].
  destruct (has_title_and_url row); simpl; rewrite <- (IH (S index)); lia.
Qed.

Lemma Forall_tl {A} (P : A -> Prop) (l : list A) :
  Forall P l -> Forall P (tl l).
Proof. destruct 1; simpl; [constructor | assumption]. Qed.

(** What [getNews] does when the feed text arrives. *)
Lemma getNews_on_text (statusText csvText : str) :
  getNews (fulfilled (mkResponse true statusText (fulfilled csvText)))
  = (fulfilled (map article_of_row
                    (filter has_title_and_url (tl (parseCSV csvText)))),
     map (fun i => warn (skip_message i))
         (skipped_from 0 (tl (parseCSV csvText)))).
Proof.
  assert (Htrim : Forall (Forall trimmed) (tl (parseCSV csvText))).
  { apply Forall_tl. apply parseCSV_trimmed. }
  unfold getNews, await, try_catch, bind, throw, ret.
  cbn [ok text negb].
  replace (slice_from 1 (parseCSV csvText)) with (tl (parseCSV csvText))
    by (unfold slice_from; now destruct (parseCSV csvText)).
  rewrite (reduce_from_spec _ Htrim 0 []). simpl.
  now rewrite app_nil_r.
Qed.

(** ** C2 *)

(** C2.  When the feed text arrives, [getNews] drops the first parsed row,
    which always exists, and for the rows after it returns, in order,
    exactly one article per row whose trimmed columns 0 and 4 are both
    non-empty, built from columns 0 to 5 as title, date, image address,
    summary, address and source; every other row is skipped with one
    warning carrying its row number, and no error; so every article
    returned has a non-empty title and address. *)
Theorem getNews_keeps_rows_with_title_and_url (statusText csvText : str) :
  let fetched := fulfilled (mkResponse true statusText (fulfilled csvText)) in
  let dataRows := tl (parseCSV csvText) in
  let articles := map article_of_row (filter has_title_and_url dataRows) in
  (exists header, parseCSV csvText = header :: dataRows)
  /\ outcome (getNews fetched) = fulfilled articles
  /\ printed (getNews fetched)
     = map (fun i => warn (skip_message i)) (skipped_from 0 dataRows)
  /\ List.length articles + List.length (printed (getNews fetched))
     = List.length dataRows
  /\ Forall (fun a => title a <> [] /\ url a <> []) articles
  /\ Forall (fun row =>
       let a := article_of_row row in
       title a = column 0 row
       /\ date a = (if truthy (column 1 row) then Some (column 1 row) else None)
       /\ imageUrl a = column 2 row
       /\ summary a = (if truthy (column 3 row) then column 3 row
                      else lit "No Summary")
       /\ url a = column 4 row
       /\ source a = (if truthy (column 5 row) then column 5 row
                     else lit "Unknown Source"))
     (filter has_title_and_url dataRows).
Proof.
  intros fetched dataRows articles.
  assert (Htrim : Forall (Forall trimmed) dataRows).
  { apply Forall_tl. apply parseCSV_trimmed. }
  assert (Hrun : getNews fetched
                 = (fulfilled articles,
                    map (fun i => warn (skip_message i)) (skipped_from 0 dataRows)))
    by apply getNews_on_text.
  assert (Hkept : Forall (fun row => column 0 row <> [] /\ column 4 row <> [])
                    (filter has_title_and_url dataRows)).
  { apply Forall_forall. intros row Hin. apply filter_In in Hin as [Hin Hrow].
    rewrite Forall_forall in Htrim. specialize (Htrim row Hin).
    unfold has_title_and_url in Hrow.
    rewrite !(column_trimmed row Htrim) in Hrow.
    apply andb_true_iff in Hrow as [H0 H4].
    split; now apply truthy_not_nil. }
  assert (Hmap : forall row,
             column 0 row <> [] -> column 4 row <> [] ->
             title (article_of_row row) = column 0 row
             /\ url (article_of_row row) = column 4 row).
  { intros row H0 H4. unfold article_of_row. cbn [title url].
    rewrite !or_else_column.
    apply truthy_not_nil in H0. apply truthy_not_nil in H4.
    now rewrite H0, H4. }
  split.
  { subst dataRows. destruct (parseCSV csvText) as [|h t] eqn:E.
    - now destruct (parseCSV_not_nil csvText).
    - now exists h. }
  split; [now rewrite Hrun|].
  split; [now rewrite Hrun|].
  split.
  { rewrite Hrun. unfold printed, articles. simpl snd.
    rewrite !length_map. apply kept_plus_skipped. }
  split.
  { unfold articles. apply Forall_map. eapply Forall_impl; [|exact Hkept].
    intros row [H0 H4]. destruct (Hmap row H0 H4) as [-> ->]. now split. }
  eapply Forall_impl; [|exact Hkept].
  intros row [H0 H4]. destruct (Hmap row H0 H4) as [Ht Hu].
  cbv zeta. split; [exact Ht|].
  unfold article_of_row; cbn [date imageUrl summary url source].
  rewrite or_undefined_column, !or_else_column.
  repeat split; try reflexivity.
  - now destruct (column 2 row).
  - apply truthy_not_nil in H4. now rewrite H4.
Qed.

(** ** C6 *)

(** C6.  When the fetch fails (rejected promise, status that is not a
    success, or unreadable body) [getNews] is fulfilled with the empty
    list and prints one error line; and whatever the fetch gives,
    [getNews] is fulfilled: it never passes an error on. *)
Theorem getNews_degrades_to_empty (fetched : settled Response) :
  fetch_failed fetched = true ->
  outcome (getNews fetched) = fulfilled []
  /\ (exists e,
         printed (getNews fetched)
         = [error (lit "Error fetching or parsing news data:") e])
  /\ (forall any : settled Response,
         exists articles, outcome (getNews any) = fulfilled articles).
Proof.
  intros Hfail. split; [|split].
  - destruct fetched as [[o st [body | e]] | e]; simpl in Hfail;
      try destruct o; try discriminate; reflexivity.
  - destruct fetched as [[o st [body | e]] | e]; simpl in Hfail;
      try destruct o; try discriminate; eexists; reflexivity.
  - intros [[o st [body | e]] | e]; try destruct o;
      try (eexists; reflexivity).
    eexists. rewrite (getNews_on_text st body). reflexivity.
Qed.

(** The theorem at a response with status 404. *)
Lemma getNews_degrades_to_empty_witness :
  fetch_failed (fulfilled (mkResponse false (lit "Not Found") (fulfilled (lit "t,u"))))
  = true
  /\ outcome (getNews (fulfilled
               (mkResponse false (lit "Not Found") (fulfilled (lit "t,u")))))
     = fulfilled [].
Proof.
  split; [reflexivity|].
  exact (proj1 (getNews_degrades_to_empty
                  (fulfilled (mkResponse false (lit "Not Found") (fulfilled (lit "t,u"))))
                  eq_refl)).
Defined.

End IngestionSpec.

(* ================================================================== *)
(** * Properties of the date normaliser *)

Module DateSpec.
Import Dates DateText.

Section WithLib.
Context {lib : DateLib} {fmt : DateFormat}.

Lemma first_valid_recognized (s : str) :
  recognized s = true <-> first_valid (attempts s) <> None.
Proof.
  unfold recognized, attempts. simpl.
  destruct (valid (parse s MDY now)), (valid (parse s YMD now)),
    (valid (newDate s)); simpl; split; congruence.
Qed.

Lemma first_valid_is_valid (tries : list (event * JsDate)) (d : JsDate) :
  first_valid tries = Some d -> valid d = true.
Proof.
  induction tries as [|[call d'] rest IH]; simpl; [discriminate|].
  destruct (valid d') eqn:E; [|exact IH].
  intros [= <-]. exact E.
Qed.

(** The result of [parseDateString] on a present, non-empty string. *)
Lemma parseDateString_present (c : code_unit) (r : str) :
  parseDateString (Some (c :: r))
  = (first_valid (attempts (c :: r)),
     calls_until_valid (attempts (c :: r))
       ++ match first_valid (attempts (c :: r)) with
          | Some _ => []
          | None =>
              [print (warn (lit "Could not parse date for sorting: " ++ c :: r))]
          end).
Proof.
  unfold parseDateString, attempts, first_valid, calls_until_valid, valid.
  destruct (isNaN (getTime (parse (c :: r) MDY now)));
    destruct (isNaN (getTime (parse (c :: r) YMD now)));
    destruct (isNaN (getTime (newDate (c :: r)))); reflexivity.
Qed.

(** Whatever [parseDateString] returns is a valid date. *)
Lemma parseDateString_valid (dateString : option str) (d : JsDate) :
  fst (parseDateString dateString) = Some d -> valid d = true.
Proof.
  destruct dateString as [[|c r]|]; try discriminate.
  rewrite parseDateString_present. cbn [fst]. apply first_valid_is_valid.
Qed.

(** ** C3 *)

(** C3.  With no date, or with the empty string for a date, the normaliser
    answers [null], calls no parser and prints nothing.  With a date it
    tries month/day/year, then
    year-month-day, then the generic parser, in that order, and stops at
    the first one that gives a valid date, which is its answer; when none
    does, its answer is [null] after the three calls and one warning.  The
    answer, when there is one, is a valid date.  The display formatter
    goes through the same attempts in the same order. *)
Theorem parseDateString_tries_formats_in_order :
  parseDateString None = (None, [])
  /\ parseDateString (Some []) = (None, [])
  /\ (forall (c : code_unit) (r : str),
        let s := c :: r in
        fst (parseDateString (Some s)) = first_valid (attempts s)
        /\ (forall d, fst (parseDateString (Some s)) = Some d ->
                      valid d = true
                      /\ snd (parseDateString (Some s))
                         = calls_until_valid (attempts s))
        /\ (fst (parseDateString (Some s)) = None ->
            Forall (fun t => valid (snd t) = false) (attempts s)
            /\ snd (parseDateString (Some s))
               = map fst (attempts s)
                   ++ [print (warn (lit "Could not parse date for sorting: " ++ s))])
        /\ fst (formatDate (Some s))
           = match fst (parseDateString (Some s)) with
             | Some d => Some (format d (lit "d MMM yyyy"))
             | None => Some s
             end
        /\ filter (fun e => match e with print _ => false | _ => true end)
                  (snd (formatDate (Some s)))
           = calls_until_valid (attempts s)).
Proof.
  split; [reflexivity|]. split; [reflexivity|].
  intros c r s. subst s. rewrite (parseDateString_present c r).
  set (s := c :: r). cbn [fst snd].
  split; [reflexivity|].
  split.
  { intros d Hd. split; [now apply first_valid_is_valid with (attempts s)|].
    rewrite Hd. now rewrite app_nil_r. }
  split.
  { intros Hnone. rewrite Hnone.
    unfold attempts, first_valid in Hnone. unfold attempts, calls_until_valid.
    destruct (valid (parse s MDY now)) eqn:E1; [discriminate|].
    destruct (valid (parse s YMD now)) eqn:E2; [discriminate|].
    destruct (valid (newDate s)) eqn:E3; [discriminate|].
    split; [|reflexivity].
    repeat constructor; assumption. }
  unfold formatDate, attempts, first_valid, calls_until_valid, valid.
  subst s.
  destruct (isNaN (getTime (parse (c :: r) MDY now)));
    destruct (isNaN (getTime (parse (c :: r) YMD now)));
    destruct (isNaN (getTime (newDate (c :: r)))); split; reflexivity.
Qed.

End WithLib.

(** ** C7 *)

Import SpecDates.

Lemma local_day_of_wall_clock (offset day rest : Z) :
  (0 <= rest < ms_per_day)%Z ->
  local_day offset (day * ms_per_day + rest - offset) = day.
Proof.
  intros H. unfold local_day.
  replace (day * ms_per_day + rest - offset + offset)%Z
    with (rest + day * ms_per_day)%Z by lia.
  rewrite Z.div_add by (unfold ms_per_day; lia).
  rewrite Z.div_small by exact H. lia.
Qed.

(** C7.  With the date library as the specification describes it, and
    whatever the offset of the host's calendar, the normaliser gives a
    valid instant on each of the three inputs (the first by the
    month/day/year format, the second by the year-month-day format, the
    third by the generic parse), and the three instants fall on the same
    day of the host's calendar, the 4th of May 2025. *)
Theorem three_inputs_same_calendar_day (offset : Z) :
  let normalise := fun s => @parseDateString (spec_lib offset) (Some (lit s)) in
  let may_4_2025 := days_from_civil 2025 5 4 in
  let midnight := (1746316800000 - offset)%Z in
  let evening := (1746391813000 - offset)%Z in
  normalise "5/4/2025"%string = (Some (Date (ms midnight)), [call_parse MDY])
  /\ normalise "2025-05-04"%string
     = (Some (Date (ms midnight)), [call_parse MDY; call_parse YMD])
  /\ normalise "2025-05-04 20:50:13"%string
     = (Some (Date (ms evening)),
        [call_parse MDY; call_parse YMD; call_newDate])
  /\ local_day offset midnight = may_4_2025
  /\ local_day offset evening = may_4_2025.
Proof.
  intros normalise may_4_2025 midnight evening.
  split; [reflexivity|]. split; [reflexivity|]. split; [reflexivity|].
  change may_4_2025 with 20212%Z.
  split.
  - replace midnight with (20212 * ms_per_day + 0 - offset)%Z
      by (unfold midnight, ms_per_day; lia).
    apply local_day_of_wall_clock. unfold ms_per_day. lia.
  - replace evening with (20212 * ms_per_day + 75013000 - offset)%Z
      by (unfold evening, ms_per_day; lia).
    apply local_day_of_wall_clock. unfold ms_per_day. lia.
Qed.

End DateSpec.

(* ================================================================== *)
(** * Facts on the sort *)

Module SortFacts.

Section ByKey.
Variable A : Type.
Variable comparefn : A -> A -> Z.
(** The comparator orders by a key, larger keys first, on the elements
    that have one. *)
Variable key : A -> Z.
Variable keyed : A -> Prop.
Hypothesis comparefn_key :
  forall a b, keyed a -> keyed b ->
              (comparefn a b >? 0)%Z = (key a <? key b)%Z.

Lemma insert_perm (x : A) (l : list A) :
  Permutation (insert comparefn x l) (x :: l).
Proof.
  induction l as [|y l IH]; simpl; [reflexivity|].
  destruct (comparefn x y >? 0)%Z; [|reflexivity].
  rewrite IH. apply perm_swap.
Qed.

Lemma sort_perm (l : list A) : Permutation (sort comparefn l) l.
Proof.
  induction l as [|x l IH]; simpl; [reflexivity|].
  rewrite insert_perm. now constructor.
Qed.

Lemma sort_Forall (P : A -> Prop) (l : list A) :
  Forall P l -> Forall P (sort comparefn l).
Proof.
  intros H. rewrite Forall_forall in *. intros x Hx. apply H.
  now apply (Permutation_in x (sort_perm l)).
Qed.

Lemma insert_sorted (x : A) (l : list A) :
  keyed x -> Forall keyed l ->
  StronglySorted (fun a b => (key b <= key a)%Z) l ->
  StronglySorted (fun a b => (key b <= key a)%Z) (insert comparefn x l).
Proof.
  intros Hx Hl Hs. induction Hs as [|y l Hs IH Hy]; simpl.
  - repeat constructor.
  - inversion Hl as [|? ? Hky Hkl]; subst.
    rewrite (comparefn_key x y Hx Hky).
    destruct (key x <? key y)%Z eqn:E.
    + apply Z.ltb_lt in E. constructor; [now apply IH|].
      rewrite Forall_forall. intros z Hz.
      apply (Permutation_in z (insert_perm x l)) in Hz.
      destruct Hz as [<- | Hz].
      * simpl. lia.
      * rewrite Forall_forall in Hy. now apply Hy.
    + apply Z.ltb_ge in E. constructor; [now constructor|].
      constructor; [exact E|].
      eapply Forall_impl; [|exact Hy].
      simpl. intros z Hz. lia.
Qed.

Lemma sort_sorted (l : list A) :
  Forall keyed l -> StronglySorted (fun a b => (key b <= key a)%Z) (sort comparefn l).
Proof.
  induction 1 as [|x l Hx Hl IH]; simpl; [constructor|].
  apply insert_sorted; [exact Hx | now apply sort_Forall | exact IH].
Qed.

(** Inserting moves an element only past elements with another key. *)
Lemma insert_stable (t : Z) (x : A) (l : list A) :
  keyed x -> Forall keyed l ->
  filter (fun a => (key a =? t)%Z) (insert comparefn x l)
  = filter (fun a => (key a =? t)%Z) (x :: l).
Proof.
  intros Hx Hl. induction Hl as [|y l Hy Hl IH]; [reflexivity|].
  simpl insert. rewrite (comparefn_key x y Hx Hy).
  destruct (key x <? key y)%Z eqn:E; [|reflexivity].
  apply Z.ltb_lt in E. simpl filter at 1. rewrite IH. simpl.
  destruct (key y =? t)%Z eqn:Ey, (key x =? t)%Z eqn:Ex; try reflexivity.
  apply Z.eqb_eq in Ey, Ex. lia.
Qed.

Lemma sort_stable (t : Z) (l : list A) :
  Forall keyed l ->
  filter (fun a => (key a =? t)%Z) (sort comparefn l)
  = filter (fun a => (key a =? t)%Z) l.
Proof.
  induction 1 as [|x l Hx Hl IH]; [reflexivity|].
  simpl sort. rewrite insert_stable; [|exact Hx | now apply sort_Forall].
  simpl. now rewrite IH.
Qed.

End ByKey.

(** [slice] and [slice_from] on the literals of the program. *)
Lemma slice_0 {A} (stop : nat) (l : list A) : slice 0 stop l = firstn stop l.
Proof. unfold slice. simpl. now rewrite Nat.sub_0_r. Qed.

Lemma slice_parts {A} (n : nat) (l : list A) :
  slice 0 n l ++ slice_from n l = l.
Proof. rewrite slice_0. apply firstn_skipn. Qed.

End SortFacts.

(* ================================================================== *)
(** * Properties of the ordering and of the partition *)

Module OrderingSpec.
Import News Dates HomePage DateText OrderText DateSpec SortFacts.

Section WithLib.
Context {lib : DateLib}.

Lemma has_date_with_parsedDate (a : NewsArticle) :
  has_date (with_parsedDate a) = parseable a.
Proof.
  unfold has_date, with_parsedDate, parseable. cbn [parsedDate].
  destruct (date a) as [[|c r]|]; try reflexivity.
  rewrite parseDateString_present. cbn [fst].
  pose proof (first_valid_recognized (c :: r)) as H.
  destruct (first_valid (attempts (c :: r))), (recognized (c :: r));
    try reflexivity.
  - destruct H as [_ H]. now discriminate H.
  - destruct H as [H _]. now destruct (H eq_refl).
Qed.

Lemma filter_has_date (l : list NewsArticle) :
  filter has_date (map with_parsedDate l)
  = map with_parsedDate (filter parseable l).
Proof.
  induction l as [|a l IH]; simpl; [reflexivity|].
  rewrite has_date_with_parsedDate.
  destruct (parseable a); simpl; now rewrite IH.
Qed.

Lemma with_parsedDate_has_instant (a : NewsArticle) :
  parseable a = true -> has_instant (with_parsedDate a).
Proof.
  intros H. rewrite <- has_date_with_parsedDate in H.
  unfold has_date in H. unfold has_instant.
  destruct (parsedDate (with_parsedDate a)) as [d|] eqn:E; [|discriminate].
  unfold with_parsedDate in E. cbn [parsedDate] in E.
  apply parseDateString_valid in E. unfold valid in E. simpl.
  destruct (getTime d) as [|t]; [discriminate | now exists t].
Qed.

Lemma kept_have_instant (l : list NewsArticle) :
  Forall has_instant (map with_parsedDate (filter parseable l)).
Proof.
  apply Forall_map, Forall_forall. intros a Ha.
  apply filter_In in Ha as [_ Ha]. now apply with_parsedDate_has_instant.
Qed.

(** On dated articles [compareDesc] orders by the instant, later first. *)
Lemma compareDesc_instant (a b : DatedArticle) :
  has_instant a -> has_instant b ->
  (compareDesc (parsedDate a) (parsedDate b) >? 0)%Z
  = (instant a <? instant b)%Z.
Proof.
  intros [ta Ha] [tb Hb]. unfold compareDesc, instant. rewrite Ha, Hb.
  destruct (ta - tb >? 0)%Z eqn:E1.
  - apply Z.gtb_lt in E1. symmetry. apply Z.ltb_ge. lia.
  - destruct (ta - tb <? 0)%Z eqn:E2.
    + apply Z.ltb_lt in E2. symmetry. apply Z.ltb_lt. lia.
    + apply Z.ltb_ge in E2. symmetry. apply Z.ltb_ge. lia.
Qed.

Lemma sorted_of_eq (allArticles : list NewsArticle) :
  sorted_of allArticles
  = sort (fun a b => compareDesc (parsedDate a) (parsedDate b))
         (map with_parsedDate (filter parseable allArticles)).
Proof. unfold sorted_of. now rewrite filter_has_date. Qed.

Lemma sorted_of_perm (allArticles : list NewsArticle) :
  Permutation (sorted_of allArticles)
              (map with_parsedDate (filter parseable allArticles)).
Proof. rewrite sorted_of_eq. apply sort_perm. Qed.

Lemma sorted_of_sorted (allArticles : list NewsArticle) :
  StronglySorted (fun a b => (instant b <= instant a)%Z)
                 (sorted_of allArticles).
Proof.
  rewrite sorted_of_eq.
  apply (sort_sorted _ _ instant has_instant compareDesc_instant).
  apply kept_have_instant.
Qed.

(** A sorted list cut in two gives two sorted lists. *)
Lemma StronglySorted_app_parts {A} (R : A -> A -> Prop) (l1 l2 : list A) :
  StronglySorted R (l1 ++ l2) -> StronglySorted R l1 /\ StronglySorted R l2.
Proof.
  induction l1 as [|x l1 IH]; simpl; intros H.
  - split; [constructor | exact H].
  - inversion H as [|? ? Hs Hx]; subst.
    destruct (IH Hs) as [H1 H2]. split; [|exact H2].
    constructor; [exact H1|]. apply Forall_app in Hx. tauto.
Qed.

(** ** C4 *)

(** C4.  The ordered view holds exactly the articles whose date some
    format recognises, each once per occurrence and with its normalised
    instant, the others being left out; it is ordered by instant, latest
    first; and the articles of one instant stand in the order the feed
    had them. *)
Theorem sorted_view_newest_first_and_stable (allArticles : list NewsArticle) :
  Permutation (sorted_of allArticles)
              (map with_parsedDate (filter parseable allArticles))
  /\ (forall a, In a (map article (sorted_of allArticles))
                <-> In a allArticles /\ parseable a = true)
  /\ Forall has_instant (sorted_of allArticles)
  /\ StronglySorted (fun a b => (instant b <= instant a)%Z)
                    (sorted_of allArticles)
  /\ (forall t,
        filter (fun a => (instant a =? t)%Z) (sorted_of allArticles)
        = filter (fun a => (instant a =? t)%Z)
                 (map with_parsedDate (filter parseable allArticles))).
Proof.
  rewrite sorted_of_eq.
  set (kept := map with_parsedDate (filter parseable allArticles)).
  set (cmp := fun a b => compareDesc (parsedDate a) (parsedDate b)).
  pose proof (kept_have_instant allArticles) as Hkept. fold kept in Hkept.
  assert (Hperm : Permutation (sort cmp kept) kept) by apply sort_perm.
  split; [exact Hperm|].
  split.
  { intros a. split.
    - intros Ha. apply (Permutation_in a (Permutation_map article Hperm)) in Ha.
      unfold kept in Ha. rewrite map_map in Ha. simpl in Ha.
      rewrite map_id in Ha. now apply filter_In in Ha.
    - intros Ha. apply (Permutation_in a (Permutation_map article (Permutation_sym Hperm))).
      unfold kept. rewrite map_map. simpl. rewrite map_id.
      now apply filter_In. }
  split; [now apply sort_Forall|].
  split.
  - apply (sort_sorted _ cmp instant has_instant compareDesc_instant kept Hkept).
  - intros t.
    apply (sort_stable _ cmp instant has_instant compareDesc_instant t kept Hkept).
Qed.

(** ** C5 *)

(** C5.  The featured set is the first [min 4 length] items of the ordered
    view and the remaining set is what comes from index 4 on, so the two,
    one after the other, are the ordered view: both are ordered latest
    first, the featured set has at most 4 items, and the two lengths add
    up to the number of articles with a recognised date.  The featured set
    is the main article followed by the side articles. *)
Theorem featured_and_remaining_partition (allArticles : list NewsArticle) :
  let p := Home allArticles in
  sortedArticles p = sorted_of allArticles
  /\ newestArticles p = firstn 4 (sortedArticles p)
  /\ remainingArticles p = skipn 4 (sortedArticles p)
  /\ newestArticles p ++ remainingArticles p = sortedArticles p
  /\ List.length (newestArticles p) = Nat.min 4 (List.length (sortedArticles p))
  /\ List.length (newestArticles p) <= 4
  /\ List.length (newestArticles p) + List.length (remainingArticles p)
     = List.length (filter parseable allArticles)
  /\ StronglySorted (fun a b => (instant b <= instant a)%Z) (newestArticles p)
  /\ StronglySorted (fun a b => (instant b <= instant a)%Z) (remainingArticles p)
  /\ newestArticles p
     = match mainArticle p with
       | Some m => m :: sideArticles p
       | None => []
       end.
Proof.
  intros p. unfold p, Home. cbn [sortedArticles newestArticles remainingArticles
                                  mainArticle sideArticles].
  set (sorted := sorted_of allArticles).
  rewrite slice_0. unfold slice_from.
  pose proof (sorted_of_perm allArticles) as Hperm.
  pose proof (sorted_of_sorted allArticles) as Hsorted.
  fold sorted in Hperm, Hsorted.
  assert (Hparts : firstn 4 sorted ++ skipn 4 sorted = sorted)
    by apply firstn_skipn.
  assert (Hlen : List.length sorted = List.length (filter parseable allArticles)).
  { rewrite (Permutation_length Hperm). apply length_map. }
  split; [reflexivity|]. split; [reflexivity|]. split; [reflexivity|].
  split; [exact Hparts|].
  split; [apply length_firstn|].
  split; [rewrite length_firstn; lia|].
  split.
  { rewrite <- Hlen. rewrite <- length_app. now rewrite Hparts. }
  rewrite <- Hparts in Hsorted.
  apply StronglySorted_app_parts in Hsorted as [Hfeatured Hremaining].
  split; [exact Hfeatured|]. split; [exact Hremaining|].
  destruct (firstn 4 sorted) as [|m [|m' rest]]; reflexivity.
Qed.

End WithLib.

End OrderingSpec.

(* ================================================================== *)
(** * Properties of the card's image fallback *)

Module CardSpec.
Import News Card CardText.

Section WithBrowser.
Variable encodeURIComponent : str -> str.

#[local] Abbreviation placeholder := (Card.placeholder encodeURIComponent).
#[local] Abbreviation handleImageError := (Card.handleImageError encodeURIComponent).
#[local] Abbreviation react := (Card.react encodeURIComponent).
#[local] Abbreviation run := (Card.run encodeURIComponent).
#[local] Abbreviation swaps := (CardText.swaps encodeURIComponent).

Lemma handleImageError_fallback (p : props) (s : card_state) :
  imageError s = true -> handleImageError p s = s.
Proof. unfold Card.handleImageError. now intros ->. Qed.

Lemma react_keeps_flag (p : props) (s : card_state) (e : card_event) :
  imageError s = true ->
  imageError (react p s e) = true /\ imageUrl (react p s e) = imageUrl s.
Proof.
  intros H. destruct e as [| |[|]]; simpl.
  - now rewrite handleImageError_fallback.
  - now split.
  - now split.
  - now split.
Qed.

Lemma run_keeps_flag (p : props) (es : list card_event) :
  forall s,
    imageError s = true ->
    imageError (run p s es) = true
    /\ imageUrl (run p s es) = imageUrl s
    /\ swaps p s es = 0.
Proof.
  induction es as [|e es IH]; intros s H; [now repeat split|].
  destruct (react_keeps_flag p s e H) as [Hf Hu].
  destruct (IH (react p s e) Hf) as (H1 & H2 & H3).
  unfold Card.run in *. simpl fold_left. simpl swaps.
  rewrite H, andb_false_r, H1, H2, H3, Hu. now repeat split.
Qed.

Lemma react_other (p : props) (s : card_state) (e : card_event) :
  is_image_failure e = false ->
  imageError (react p s e) = imageError s
  /\ imageUrl (react p s e) = imageUrl s.
Proof. destruct e as [| |[|]]; simpl; try discriminate; now split. Qed.

(** ** C8 *)

(** C8.  On a card whose fallback flag is unset, a load failure of the image
    sets the address to the placeholder, which depends on the title and on
    the size only, sets the flag, and touches no other slot; in that state
    further load failures change nothing, however many and whatever other
    events come between; and along any run of events the handler swaps the
    address exactly once when an image failure occurs, never otherwise. *)
Theorem image_failure_swaps_once
    (p : props) (s : card_state) (es : list card_event) :
  imageError s = false ->
  let s1 := handleImageError p s in
  imageUrl s1 = placeholder p
  /\ imageError s1 = true
  /\ optimized s1 = false
  /\ (faviconUrl s1, faviconError s1, isInView s1)
     = (faviconUrl s, faviconError s, isInView s)
  /\ handleImageError p s1 = s1
  /\ (forall n, Nat.iter n (handleImageError p) s1 = s1)
  /\ imageUrl (run p s1 es) = placeholder p
  /\ imageError (run p s1 es) = true
  /\ swaps p s es = (if existsb is_image_failure es then 1 else 0)
  /\ (forall p',
         title (article p') = title (article p) ->
         card_size p' = card_size p ->
         placeholder p' = placeholder p).
Proof.
  intros Hs s1.
  assert (E1 : s1 = {| imageUrl := placeholder p; imageError := true;
                       faviconUrl := faviconUrl s; faviconError := faviconError s;
                       isInView := isInView s |}).
  { unfold s1, Card.handleImageError. now rewrite Hs. }
  assert (Hflag : imageError s1 = true) by now rewrite E1.
  assert (Hfix : handleImageError p s1 = s1)
    by now apply handleImageError_fallback.
  split; [now rewrite E1|]. split; [exact Hflag|].
  split; [unfold optimized; now rewrite Hflag|].
  split; [now rewrite E1|]. split; [exact Hfix|].
  split.
  { induction n as [|n IH]; simpl; [reflexivity|]. now rewrite IH. }
  destruct (run_keeps_flag p es s1 Hflag) as (H1 & H2 & _).
  split; [rewrite H2; now rewrite E1|]. split; [exact H1|].
  split.
  { clear - Hs. revert s Hs. induction es as [|e es IH]; intros s Hs; [reflexivity|].
    simpl swaps. simpl existsb. rewrite Hs, andb_true_r.
    destruct (is_image_failure e) eqn:Ee.
    - destruct e; try discriminate. simpl react.
      assert (Hf : imageError (handleImageError p s) = true)
        by (unfold Card.handleImageError; now rewrite Hs).
      destruct (run_keeps_flag p es _ Hf) as (_ & _ & ->). reflexivity.
    - destruct (react_other p s e Ee) as [Hf _]. rewrite Hs in Hf.
      now rewrite (IH _ Hf). }
  intros p' Ht Hz. unfold Card.placeholder. now rewrite Ht, Hz.
Qed.

End WithBrowser.

(** The theorem at a large card whose image fails three times, other
    events coming between, with the identity for [encodeURIComponent]. *)
Lemma image_failure_swaps_once_witness :
  let p := mkProps (mkArticle (lit "T") [] (lit "https://a.example/x") []
                              (lit "General") (lit "https://a.example/i.png")
                              None) large in
  let es := [ImageLoadFailed; Intersection true; ImageLoadFailed;
             FaviconLoadFailed; ImageLoadFailed] in
  imageError (initial (fun t => t) p) = false
  /\ imageUrl (Card.run (fun t => t) p (initial (fun t => t) p) es)
     = lit "https://picsum.photos/seed/T/800/500"
  /\ swaps (fun t => t) p (initial (fun t => t) p) es = 1.
Proof.
  intros p es.
  destruct (image_failure_swaps_once (fun t => t) p (initial (fun t => t) p) es
              eq_refl) as (_ & _ & _ & _ & _ & _ & _ & _ & H9 & _).
  split; [reflexivity|]. split; [reflexivity | exact H9].
Defined.

End CardSpec.

(* ================================================================== *)
(** * The page on a concrete feed *)

Module PageExamples.
Import News Dates HomePage NumeralDates.
#[local] Open Scope string_scope.

(** Six articles: the one without a date and the one whose date is not
    recognised are left out; the two of instant 3 keep the feed's order;
    four are featured and none remains. *)
Example page_of_six :
  let feed := [dated "a" (Some "3"); dated "b" (Some "soon"); dated "c" (Some "5");
               dated "d" (Some "3"); dated "e" None; dated "f" (Some "4")] in
  let p := @Home numeral_lib feed in
  map (fun a => title (article a)) (newestArticles p)
  = [lit "c"; lit "f"; lit "a"; lit "d"]
  /\ remainingArticles p = []
  /\ option_map (fun a => title (article a)) (mainArticle p) = Some (lit "c")
  /\ List.length (sideArticles p) = 3.
Proof. repeat split. Qed.

(** The normaliser on a date that no format recognises: three calls, in
    order, then the warning. *)
Example unrecognised_date_trace :
  @parseDateString numeral_lib (Some (lit "soon"))
  = (None,
     [call_parse MDY; call_parse YMD; call_newDate;
      print (warn (lit "Could not parse date for sorting: soon"))]).
Proof. reflexivity. Qed.

End PageExamples.

(* ================================================================== *)
(** * Further properties of the feed parser *)

Module FeedParserMore.
Import Csv RowText JsStringFacts CsvFacts.

(** Outside a quoted field a character that is neither a quote nor a comma
    is added to the current field. *)
Lemma scan_outside_char (vs : list str) (cur : str) (q : bool)
      (c : code_unit) (rest : str) :
  (c =? QUOTE)%N = false -> (c =? COMMA)%N = false ->
  scan (mkScan vs cur q) (c :: rest) = scan (mkScan vs (cur ++ [c]) q) rest.
Proof. intros Hq Hc. simpl. now rewrite Hq, Hc. Qed.

Lemma scan_outside_comma (vs : list str) (cur : str) (rest : str) :
  scan (mkScan vs cur false) (COMMA :: rest)
  = scan (mkScan (vs ++ [trim cur]) [] false) rest.
Proof. reflexivity. Qed.

Lemma split_head_tail (sep : code_unit) (s : str) :
  exists h t, split sep s = h :: t.
Proof.
  destruct s as [|c r]; simpl; [now exists [], []|].
  destruct (c =? sep)%N; [now eexists _, _|].
  destruct (split sep r); now eexists _, _.
Qed.

(** A line without quotes, scanned from outside a quoted field: the
    current field is continued by the first piece, the other pieces are
    fields of their own. *)
Lemma finish_scan_plain (line : str) :
  no_quote line = true ->
  forall (vs : list str) (cur : str),
    finish (scan (mkScan vs cur false) line)
    = vs ++ trim (cur ++ hd [] (split COMMA line))
         :: map trim (tl (split COMMA line)).
Proof.
  induction line as [|c r IH]; intros Hq vs cur.
  - simpl. unfold finish. simpl. now rewrite app_nil_r.
  - simpl in Hq. apply andb_true_iff in Hq as [Hc Hr].
    apply negb_true_iff in Hc. specialize (IH Hr).
    simpl split. destruct (c =? COMMA)%N eqn:Hcomma.
    + apply N.eqb_eq in Hcomma. subst c.
      rewrite scan_outside_comma, IH. simpl hd. simpl tl.
      rewrite app_nil_r. rewrite <- app_assoc. simpl.
      destruct (split_head_tail COMMA r) as (h & t & E). now rewrite E.
    + rewrite (scan_outside_char vs cur false c r Hc Hcomma), IH.
      destruct (split_head_tail COMMA r) as (h & t & E). rewrite E. simpl.
      now rewrite <- app_assoc.
Qed.

(** ** X1 *)

(** X1.  On a line without quotes [parseCSV]'s scan is a split on the
    comma followed by a trim of every piece. *)
Theorem plain_line_is_split_and_trim (line : str) :
  no_quote line = true ->
  parseLine line = map trim (split COMMA line).
Proof.
  intros Hq. unfold parseLine, init.
  rewrite (finish_scan_plain line Hq [] []). simpl.
  destruct (split_head_tail COMMA line) as (h & t & E). now rewrite E.
Qed.

(** The theorem at a line of three fields with white space around them,
    the last one empty. *)
Lemma plain_line_is_split_and_trim_witness :
  no_quote (lit " a b ,c , ") = true
  /\ parseLine (lit " a b ,c , ") = [lit "a b"; lit "c"; []].
Proof.
  split; [reflexivity|].
  rewrite (plain_line_is_split_and_trim (lit " a b ,c , ") eq_refl).
  reflexivity.
Defined.

(** A plain text in front of what is left is added to the current
    field. *)
Lemma scan_plain_prefix (s : str) :
  forall (vs : list str) (cur rest : str) (q : bool),
    no_quote s = true -> no_comma s = true ->
    scan (mkScan vs cur q) (s ++ rest) = scan (mkScan vs (cur ++ s) q) rest.
Proof.
  induction s as [|c r IH]; intros vs cur rest q Hq Hc.
  - now rewrite app_nil_r.
  - simpl in Hq, Hc.
    apply andb_true_iff in Hq as [Hq1 Hq2].
    apply andb_true_iff in Hc as [Hc1 Hc2].
    apply negb_true_iff in Hq1. apply negb_true_iff in Hc1.
    simpl app. rewrite (scan_outside_char vs cur q c _ Hq1 Hc1).
    rewrite (IH vs (cur ++ [c]) rest q Hq2 Hc2). now rewrite <- app_assoc.
Qed.

(** A written field in front of what is left, which is nothing or starts
    with a comma, is read back as its content. *)
Lemma scan_written_field (f : field_text) (vs : list str) (cur rest : str) :
  well_written f = true ->
  starts_with_quote rest = false ->
  scan (mkScan vs cur false) (write_field f ++ rest)
  = scan (mkScan vs (cur ++ field_content f) false) rest.
Proof.
  intros Hf Hrest. destruct f as [content | content]; simpl in *.
  - apply andb_true_iff in Hf as [Hq Hc]. now apply scan_plain_prefix.
  - now apply scan_quoted.
Qed.

Lemma finish_scan_written_row (fs : list field_text) :
  fs <> [] ->
  forallb well_written fs = true ->
  forall vs,
    finish (scan (mkScan vs [] false) (join_comma (map write_field fs)))
    = vs ++ map (fun f => trim (field_content f)) fs.
Proof.
  induction fs as [|f rest IH]; [congruence|].
  intros _ Hall vs. simpl in Hall. apply andb_true_iff in Hall as [Hf Hrest].
  destruct rest as [|g rest'].
  - simpl join_comma.
    rewrite <- (app_nil_r (write_field f)).
    rewrite (scan_written_field f vs [] [] Hf eq_refl). reflexivity.
  - change (join_comma (map write_field (f :: g :: rest')))
      with (write_field f ++ COMMA :: join_comma (map write_field (g :: rest'))).
    rewrite (scan_written_field f vs []
               (COMMA :: join_comma (map write_field (g :: rest'))) Hf eq_refl).
    rewrite scan_outside_comma.
    rewrite (IH ltac:(discriminate) Hrest (vs ++ [trim ([] ++ field_content f)])).
    now rewrite <- app_assoc.
Qed.

(** ** X2 *)

(** X2.  Writing a row and parsing it gives the fields back, trimmed: the
    fields may be plain (no quote, no comma) or quoted (commas allowed,
    quotes doubled, at least one character that is not a quote), in any
    mix. *)
Theorem written_row_round_trip (fs : list field_text) :
  fs <> [] ->
  forallb well_written fs = true ->
  parseLine (join_comma (map write_field fs))
  = map (fun f => trim (field_content f)) fs.
Proof.
  intros Hne Hall. unfold parseLine, init.
  now rewrite (finish_scan_written_row fs Hne Hall []).
Qed.

(** The theorem at a row of a plain field, a quoted field with a comma and
    a quote in it, and an empty plain field. *)
Lemma written_row_round_trip_witness :
  let fs := [Plain (lit " Title "); Quoted (lit "a, b" ++ QUOTE :: lit "c");
             Plain []] in
  forallb well_written fs = true
  /\ parseLine (join_comma (map write_field fs))
     = [lit "Title"; lit "a, b" ++ QUOTE :: lit "c"; []].
Proof.
  intros fs. split; [reflexivity|].
  rewrite (written_row_round_trip fs ltac:(discriminate) eq_refl).
  reflexivity.
Defined.

(** A last character that is neither a quote nor a comma only adds itself
    to the current field. *)
Lemma scan_snoc (c : code_unit) (line : str) :
  (c =? QUOTE)%N = false -> (c =? COMMA)%N = false ->
  forall st,
    scan st (line ++ [c])
    = mkScan (values (scan st line)) (current (scan st line) ++ [c])
             (inQuotes (scan st line)).
Proof.
  intros Hq Hc. induction line as [line IH] using scan_ind.
  intros [vs cur q]. destruct line as [|x rest].
  - simpl. now rewrite Hq, Hc.
  - change ((x :: rest) ++ [c]) with (x :: rest ++ [c]).
    destruct (N.eqb_spec x QUOTE) as [-> | Ex].
    + destruct rest as [|n rest'].
      * simpl. now rewrite Hq, Hc.
      * change ((n :: rest') ++ [c]) with (n :: rest' ++ [c]).
        destruct (N.eqb_spec n QUOTE) as [-> | En].
        -- rewrite !scan_doubled. apply IH. simpl. lia.
        -- apply N.eqb_neq in En.
           rewrite (scan_lone_quote vs cur q (n :: rest' ++ [c]) En).
           rewrite (scan_lone_quote vs cur q (n :: rest') En).
           apply (IH (n :: rest')). simpl. lia.
    + apply N.eqb_neq in Ex.
      assert (E : forall l,
                 scan (mkScan vs cur q) (x :: l)
                 = if (x =? COMMA)%N && negb q
                   then scan (mkScan (vs ++ [trim cur]) [] q) l
                   else scan (mkScan vs (cur ++ [x]) q) l).
      { intros l. simpl. now rewrite Ex. }
      rewrite !E.
      destruct ((x =? COMMA)%N && negb q); apply IH; simpl; lia.
Qed.

Lemma ws_not_quote_nor_comma (c : code_unit) :
  is_ws c = true -> (c =? QUOTE)%N = false /\ (c =? COMMA)%N = false.
Proof.
  intros H. split.
  - destruct (c =? QUOTE)%N eqn:E; [|reflexivity].
    apply N.eqb_eq in E. subst c. discriminate H.
  - destruct (c =? COMMA)%N eqn:E; [|reflexivity].
    apply N.eqb_eq in E. subst c. discriminate H.
Qed.

Lemma trimStart_all_ws (s : str) :
  forallb is_ws s = true -> trimStart s = [].
Proof.
  induction s as [|x r IH]; simpl; [reflexivity|].
  intros H. apply andb_true_iff in H as [Hx Hr]. now rewrite Hx, IH.
Qed.

Lemma trimStart_snoc_ws (s : str) (c : code_unit) :
  is_ws c = true ->
  trimStart (s ++ [c]) = [] /\ trimStart s = []
  \/ trimStart (s ++ [c]) = trimStart s ++ [c].
Proof.
  intros Hc. induction s as [|x r IH]; simpl.
  - rewrite Hc. now left.
  - destruct (is_ws x); [exact IH | now right].
Qed.

Lemma trim_snoc_ws (s : str) (c : code_unit) :
  is_ws c = true -> trim (s ++ [c]) = trim s.
Proof.
  intros Hc. unfold trim.
  destruct (trimStart_snoc_ws s c Hc) as [[E1 E2] | E]; [now rewrite E1, E2|].
  rewrite E. unfold trimEnd. rewrite rev_app_distr. simpl. now rewrite Hc.
Qed.

(** ** X3 *)

(** X3.  White space at the end of a line does not change its row: a line
    that ends in a carriage return, as the lines of a text with CRLF line
    ends do once split on the line feed, is parsed as the line without
    it, whatever the quote state at the end of the line. *)
Theorem trailing_white_space_ignored (line : str) (c : code_unit) :
  is_ws c = true ->
  parseLine (line ++ [c]) = parseLine line.
Proof.
  intros Hc. destruct (ws_not_quote_nor_comma c Hc) as [Hq Hcomma].
  unfold parseLine, finish. rewrite (scan_snoc c line Hq Hcomma init).
  simpl. now rewrite (trim_snoc_ws _ c Hc).
Qed.

(** The theorem at a line that ends in a carriage return. *)
Lemma trailing_white_space_ignored_witness :
  is_ws CR = true
  /\ parseLine (lit "a,b" ++ [CR]) = [lit "a"; lit "b"].
Proof.
  split; [reflexivity|].
  rewrite (trailing_white_space_ignored (lit "a,b") CR eq_refl).
  reflexivity.
Defined.

Lemma trimmed_no_outer_ws (f : str) :
  trim f = f -> head_is_ws f = false /\ last_is_ws f = false.
Proof.
  intros E. split.
  - rewrite <- E. unfold trim.
    destruct (trimStart_head f) as [E0 | (c & r & E0 & Hc)]; rewrite E0.
    + reflexivity.
    + rewrite (trimEnd_cons_keep c r Hc). exact Hc.
  - rewrite <- E. unfold last_is_ws, trim, trimEnd. rewrite rev_involutive.
    destruct (trimStart_head (rev (trimStart f))) as [E0 | (c & r & E0 & Hc)];
      rewrite E0; [reflexivity | exact Hc].
Qed.

(** ** X4 *)

(** X4.  No field that [parseCSV] returns starts or ends with a white
    space character, quoted or not. *)
Theorem fields_have_no_outer_white_space (csvText : str) :
  Forall (Forall (fun f => head_is_ws f = false /\ last_is_ws f = false))
         (parseCSV csvText).
Proof.
  eapply Forall_impl; [|apply parseCSV_trimmed].
  intros row Hrow. eapply Forall_impl; [|exact Hrow].
  intros f Hf. now apply trimmed_no_outer_ws.
Qed.

End FeedParserMore.

(* ================================================================== *)
(** * Further properties of the ingestion *)

Module IngestionMore.
Import Csv News RowText IngestionText ArticleText JsStringFacts CsvFacts
       IngestionSpec.

Lemma count_commas_cons (x : code_unit) (l : str) :
  count_commas (x :: l)
  = (if (x =? COMMA)%N then 1 else 0) + count_commas l.
Proof. unfold count_commas. simpl. now destruct (x =? COMMA)%N. Qed.

(** The scan closes at most one field per comma. *)
Lemma scan_values_length (line : str) :
  forall st,
    List.length (values (scan st line))
    <= List.length (values st) + count_commas line.
Proof.
  induction line as [line IH] using scan_ind. intros [vs cur q].
  destruct line as [|x rest]; [simpl; lia|].
  rewrite count_commas_cons.
  destruct (N.eqb_spec x QUOTE) as [-> | Ex].
  - destruct rest as [|n rest']; [simpl; lia|].
    rewrite count_commas_cons.
    destruct (N.eqb_spec n QUOTE) as [-> | En].
    + rewrite scan_doubled.
      specialize (IH rest' ltac:(simpl; lia) (mkScan vs (cur ++ [QUOTE]) q)).
      simpl in *. lia.
    + apply N.eqb_neq in En.
      rewrite (scan_lone_quote vs cur q (n :: rest') En).
      specialize (IH (n :: rest') ltac:(simpl; lia) (mkScan vs cur (negb q))).
      rewrite count_commas_cons in IH. simpl in *. lia.
  - apply N.eqb_neq in Ex.
    assert (E : scan (mkScan vs cur q) (x :: rest)
                = if (x =? COMMA)%N && negb q
                  then scan (mkScan (vs ++ [trim cur]) [] q) rest
                  else scan (mkScan vs (cur ++ [x]) q) rest).
    { simpl. now rewrite Ex. }
    rewrite E. destruct (x =? COMMA)%N; simpl andb.
    + destruct (negb q).
      * specialize (IH rest ltac:(simpl; lia) (mkScan (vs ++ [trim cur]) [] q)).
        simpl in IH. rewrite length_app in IH. simpl in *. lia.
      * specialize (IH rest ltac:(simpl; lia) (mkScan vs (cur ++ [x]) q)).
        simpl in *. lia.
    + specialize (IH rest ltac:(simpl; lia) (mkScan vs (cur ++ [x]) q)).
      simpl in *. lia.
Qed.

Lemma parseLine_length_le (line : str) :
  List.length (parseLine line) <= S (count_commas line).
Proof.
  unfold parseLine, finish. rewrite length_app. simpl.
  pose proof (scan_values_length line init) as H. simpl in H. lia.
Qed.

(** ** X5 *)

(** X5.  A row has at most one field more than its line has commas, so a
    line with fewer than four commas has no column 4 and is never turned
    into an article: the reducer leaves the accumulator as it is and
    prints the warning. *)
Theorem short_line_is_skipped
    (line : str) (acc : list NewsArticle) (index : nat) :
  (count_commas line <? 4) = true ->
  List.length (parseLine line) <= S (count_commas line)
  /\ at_index (parseLine line) 4 = None
  /\ reducer acc (parseLine line) index
     = (fulfilled acc, [warn (skip_message index)]).
Proof.
  intros H. apply Nat.ltb_lt in H.
  pose proof (parseLine_length_le line) as Hlen.
  assert (E : at_index (parseLine line) 4 = None).
  { unfold at_index. apply nth_error_None. lia. }
  split; [exact Hlen|]. split; [exact E|].
  unfold reducer. rewrite E. simpl is_truthy. rewrite andb_false_r.
  reflexivity.
Qed.

(** The theorem at a line of four fields, title and date among them. *)
Lemma short_line_is_skipped_witness :
  (count_commas (lit "Title,5/4/2025,,text") <? 4) = true
  /\ reducer [] (parseLine (lit "Title,5/4/2025,,text")) 0
     = (fulfilled [], [warn (lit "Skipping row 2 due to missing title or URL.")]).
Proof.
  split; [reflexivity|].
  exact (proj2 (proj2 (short_line_is_skipped
                         (lit "Title,5/4/2025,,text") [] 0 eq_refl))).
Defined.

(** ** X6 *)

(** X6.  A feed of one line, the header alone or nothing at all once
    trimmed, gives the empty list and prints nothing: neither a warning
    nor an error. *)
Theorem header_only_feed_is_empty (statusText csvText : str) :
  no_lf (trim csvText) = true ->
  parseCSV csvText = [parseLine (trim csvText)]
  /\ getNews (fulfilled (mkResponse true statusText (fulfilled csvText)))
     = (fulfilled [], []).
Proof.
  intros H.
  assert (E : parseCSV csvText = [parseLine (trim csvText)]).
  { unfold parseCSV. now rewrite (split_lf_no_lf _ H). }
  split; [exact E|].
  rewrite getNews_on_text, E. reflexivity.
Qed.

(** The theorem at a header followed by blank lines. *)
Lemma header_only_feed_is_empty_witness :
  no_lf (trim (lit "Title,Date,Image,Summary,URL,Source" ++ [LF; LF])) = true
  /\ getNews (fulfilled (mkResponse true []
                (fulfilled (lit "Title,Date,Image,Summary,URL,Source" ++ [LF; LF]))))
     = (fulfilled [], []).
Proof.
  split; [reflexivity|].
  exact (proj2 (header_only_feed_is_empty []
                  (lit "Title,Date,Image,Summary,URL,Source" ++ [LF; LF])
                  eq_refl)).
Defined.

Lemma or_else_trimmed (row : list str) (k : nat) (d : str) :
  Forall trimmed row -> trim d = d ->
  trim (or_else (at_index row k) d) = or_else (at_index row k) d.
Proof.
  intros Hrow Hd. rewrite or_else_column.
  destruct (truthy (column k row)); [now apply column_trimmed | exact Hd].
Qed.

Lemma or_else_not_nil (v : option str) (d : str) :
  d <> [] -> or_else v d <> [].
Proof. destruct v as [[|c r]|]; simpl; congruence. Qed.

Lemma article_of_row_well_formed (row : list str) :
  Forall trimmed row -> well_formed_article (article_of_row row).
Proof.
  intros Hrow. unfold well_formed_article, article_of_row.
  cbn [title url summary source category imageUrl date].
  split; [apply or_else_not_nil; discriminate|].
  split; [apply or_else_not_nil; discriminate|].
  split; [reflexivity|].
  split.
  { rewrite or_undefined_column. destruct (column 1 row) as [|c r]; simpl;
      congruence. }
  split; [now apply or_else_trimmed|].
  split; [now apply or_else_trimmed|].
  split; [now apply or_else_trimmed|].
  split; [now apply or_else_trimmed|].
  split; [now apply or_else_trimmed|].
  intros d Hd. rewrite or_undefined_column in Hd.
  destruct (truthy (column 1 row)); [|discriminate].
  injection Hd as <-. now apply column_trimmed.
Qed.

(** ** X7 *)

(** X7.  Whatever the fetch gives, [getNews] is fulfilled with articles
    whose summary and source are not empty (the defaults fill them),
    whose category is the constant, whose date is absent rather than
    empty, and whose fields have no white space around them. *)
Theorem returned_articles_are_well_formed (fetched : settled Response) :
  match outcome (getNews fetched) with
  | fulfilled articles => Forall well_formed_article articles
  | rejected _ => False
  end.
Proof.
  destruct fetched as [[o st [body | e]] | e]; try destruct o;
    try (simpl; constructor).
  rewrite getNews_on_text. unfold outcome. cbn [fst].
  apply Forall_map, Forall_forall. intros row Hin.
  apply filter_In in Hin as [Hin _].
  apply article_of_row_well_formed.
  pose proof (parseCSV_trimmed body) as H.
  apply Forall_tl in H. rewrite Forall_forall in H. now apply H.
Qed.

End IngestionMore.

(* ================================================================== *)
(** * Further properties of the page *)

Module PageMore.
Import News Dates HomePage PageRender DateText OrderText DateEvents
       IngestionText DateSpec SortFacts OrderingSpec.

Section SortedInput.
Variable A : Type.
Variable comparefn : A -> A -> Z.
Variable key : A -> Z.
Variable keyed : A -> Prop.
Hypothesis comparefn_key :
  forall a b, keyed a -> keyed b ->
              (comparefn a b >? 0)%Z = (key a <? key b)%Z.

(** The sort leaves a list that is already in order as it is. *)
Lemma sort_of_sorted (l : list A) :
  Forall keyed l ->
  StronglySorted (fun a b => (key b <= key a)%Z) l ->
  sort comparefn l = l.
Proof.
  intros Hk Hs. induction Hs as [|x l Hs IH Hx]; [reflexivity|].
  inversion Hk as [|? ? Hkx Hkl]; subst.
  simpl sort. rewrite (IH Hkl).
  destruct l as [|y l']; [reflexivity|].
  simpl insert. inversion Hkl as [|? ? Hky _]; subst.
  rewrite (comparefn_key x y Hkx Hky).
  inversion Hx as [|? ? Hyx _]; subst.
  destruct (key x <? key y)%Z eqn:E; [|reflexivity].
  apply Z.ltb_lt in E. lia.
Qed.

End SortedInput.

Lemma map_const_repeat {A B} (b : B) (l : list A) :
  map (fun _ => b) l = repeat b (List.length l).
Proof. induction l as [|x l IH]; simpl; [reflexivity | now rewrite IH]. Qed.

Section WithLib.
Context {lib : DateLib} {fmt : DateFormat}.

Lemma sorted_of_length (allArticles : list NewsArticle) :
  List.length (sorted_of allArticles)
  = List.length (filter parseable allArticles).
Proof.
  rewrite (Permutation_length (sorted_of_perm allArticles)).
  apply length_map.
Qed.

(** ** X8 *)

(** X8.  The main article is the head of the ordered view: there is none
    exactly when no article has a recognised date, and when there is one
    it is an article of the feed and no article of the view is later than
    it.  The side articles are the next three at most. *)
Theorem main_article_is_latest (allArticles : list NewsArticle) :
  let p := Home allArticles in
  mainArticle p = hd_error (sorted_of allArticles)
  /\ (mainArticle p = None <-> filter parseable allArticles = [])
  /\ (forall m, mainArticle p = Some m ->
        In (article m) allArticles
        /\ Forall (fun a => (instant a <= instant m)%Z) (sortedArticles p))
  /\ sideArticles p = firstn 3 (tl (sorted_of allArticles))
  /\ List.length (sideArticles p) <= 3.
Proof.
  intros p. unfold p, Home.
  cbn [sortedArticles newestArticles mainArticle sideArticles].
  pose proof (sorted_of_perm allArticles) as Hperm.
  pose proof (sorted_of_sorted allArticles) as Hsorted.
  pose proof (sorted_of_length allArticles) as Hlen.
  rewrite slice_0. unfold slice_from.
  destruct (sorted_of allArticles) as [|m rest] eqn:E.
  - simpl. split; [reflexivity|]. split.
    { split; [|reflexivity]. intros _. simpl in Hlen.
      now apply length_zero_iff_nil. }
    split; [intros m0 Hm; discriminate Hm|].
    split; [reflexivity | lia].
  - assert (Hside : (if (1 <? List.length (firstn 4 (m :: rest)))%nat
                     then skipn 1 (firstn 4 (m :: rest)) else [])
                    = firstn 3 rest).
    { destruct rest as [|a [|b [|c rest']]]; reflexivity. }
    rewrite Hside. simpl hd_error. simpl tl.
    split; [reflexivity|]. split.
    { split; [discriminate|]. intros H. rewrite H in Hlen. discriminate Hlen. }
    split.
    { intros m' Hm. simpl in Hm. injection Hm as <-. split.
      - assert (Hin : In m (m :: rest)) by now left.
        apply (Permutation_in m Hperm) in Hin.
        apply in_map_iff in Hin as (a & <- & Ha).
        apply filter_In in Ha. simpl. tauto.
      - inversion Hsorted as [|? ? _ Hall]; subst.
        constructor; [lia | exact Hall]. }
    split; [reflexivity|]. rewrite length_firstn. lia.
Qed.

(** ** X9 *)

(** X9.  The page renders every article of the ordered view exactly once
    and in order: the first one large, the next three at most small, all
    the others at the default size.  The message for an empty page shows
    exactly when no article has a recognised date, and the separator
    exactly when more than four have one. *)
Theorem every_article_rendered_once (allArticles : list NewsArticle) :
  let p := Home allArticles in
  let n := List.length (filter parseable allArticles) in
  map fst (rendered_cards p) = sorted_of allArticles
  /\ map snd (rendered_cards p)
     = firstn n [Card.large; Card.small; Card.small; Card.small]
         ++ repeat Card.default (n - 4)
  /\ shows_empty_message p = (n =? 0)%nat
  /\ shows_separator p = (4 <? n)%nat.
Proof.
  intros p n. unfold n. rewrite <- sorted_of_length.
  unfold p, Home, rendered_cards, shows_empty_message, shows_separator.
  cbn [sortedArticles newestArticles mainArticle sideArticles remainingArticles].
  rewrite slice_0. unfold slice_from.
  destruct (sorted_of allArticles) as [|a [|b [|c [|d [|e rest]]]]];
    try (repeat split; reflexivity).
  cbn [firstn skipn List.length Nat.ltb Nat.leb negb app map fst snd nth_error
       Nat.eqb Nat.sub].
  rewrite !map_map. cbn [fst snd]. rewrite map_id.
  rewrite (map_const_repeat Card.default rest).
  repeat split; reflexivity.
Qed.

(** ** X10 *)

(** X10.  A feed whose articles with a recognised date already go from
    the latest to the earliest is shown in the order it has. *)
Theorem ordered_feed_keeps_its_order (allArticles : list NewsArticle) :
  StronglySorted (fun a b => (instant b <= instant a)%Z)
                 (map with_parsedDate (filter parseable allArticles)) ->
  sorted_of allArticles = map with_parsedDate (filter parseable allArticles).
Proof.
  intros Hs. rewrite sorted_of_eq.
  apply (sort_of_sorted _ _ instant has_instant compareDesc_instant);
    [apply kept_have_instant | exact Hs].
Qed.

(** ** X11 *)

(** X11.  When the fetch fails the page is still computed: [Home] is
    fulfilled with the page that has no article, which renders no card
    and shows the message, after the one error line of [getNews]; and
    whatever the fetch gives, [Home] is fulfilled. *)
Theorem failed_fetch_gives_empty_page (fetched : settled Response) :
  fetch_failed fetched = true ->
  outcome (HomeAsync fetched) = fulfilled (mkPage [] [] None [] [])
  /\ List.length (printed (HomeAsync fetched)) = 1
  /\ rendered_cards (mkPage [] [] None [] []) = []
  /\ shows_empty_message (mkPage [] [] None [] []) = true
  /\ (forall any : settled Response,
         exists p, outcome (HomeAsync any) = fulfilled p).
Proof.
  intros Hfail. split; [|split; [|split; [|split]]].
  - destruct fetched as [[o st [body | e]] | e]; simpl in Hfail;
      try destruct o; try discriminate; reflexivity.
  - destruct fetched as [[o st [body | e]] | e]; simpl in Hfail;
      try destruct o; try discriminate; reflexivity.
  - reflexivity.
  - reflexivity.
  - intros [[o st [body | e]] | e]; try destruct o;
      try (eexists; reflexivity).
    unfold HomeAsync. rewrite (IngestionSpec.getNews_on_text st body).
    eexists. reflexivity.
Qed.

(** What [formatDate] gives when the normaliser has an answer. *)
Lemma formatDate_of_parsed (c : code_unit) (r : str) (d : JsDate) :
  fst (parseDateString (Some (c :: r))) = Some d ->
  formatDate (Some (c :: r))
  = (Some (format d (lit "d MMM yyyy")),
     calls_until_valid (attempts (c :: r))).
Proof.
  unfold parseDateString, formatDate, attempts, calls_until_valid, valid.
  destruct (isNaN (getTime (parse (c :: r) MDY now)));
    destruct (isNaN (getTime (parse (c :: r) YMD now)));
    destruct (isNaN (getTime (newDate (c :: r))));
    cbn [negb fst]; intros H; try discriminate H;
    injection H as <-; reflexivity.
Qed.

Lemma calls_until_valid_no_print (s : str) :
  Forall (fun e => is_print e = false) (calls_until_valid (attempts s)).
Proof.
  unfold attempts, calls_until_valid.
  destruct (valid (parse s MDY now)); [repeat constructor|].
  destruct (valid (parse s YMD now)); [repeat constructor|].
  destruct (valid (newDate s)); repeat constructor.
Qed.

(** ** X12 *)

(** X12.  With one date library on both sides, the card of every article
    the page shows displays the formatted date of the instant the page
    ordered it by, and prints nothing: the raw date string and the
    warning of [formatDate] never come up on the page. *)
Theorem shown_articles_have_formatted_dates (allArticles : list NewsArticle) :
  Forall (fun a =>
            exists d,
              parsedDate a = Some d
              /\ fst (formatDate (date (article a)))
                 = Some (format d (lit "d MMM yyyy"))
              /\ Forall (fun e => is_print e = false)
                        (snd (formatDate (date (article a)))))
         (sorted_of allArticles).
Proof.
  apply Forall_forall. intros a Ha.
  apply (Permutation_in a (sorted_of_perm allArticles)) in Ha.
  apply in_map_iff in Ha as (art & <- & Hart).
  apply filter_In in Hart as [_ Hp].
  pose proof (with_parsedDate_has_instant art Hp) as [t Ht].
  unfold with_parsedDate in *. cbn [parsedDate article] in *.
  unfold parseable in Hp.
  destruct (date art) as [[|c r]|]; try discriminate Hp.
  change (time_of (fst (parseDateString (Some (c :: r)))) = ms t) in Ht.
  change (exists d,
             fst (parseDateString (Some (c :: r))) = Some d
             /\ fst (formatDate (Some (c :: r)))
                = Some (format d (lit "d MMM yyyy"))
             /\ Forall (fun e => is_print e = false)
                       (snd (formatDate (Some (c :: r))))).
  destruct (fst (parseDateString (Some (c :: r)))) as [d|] eqn:E;
    [|discriminate Ht].
  exists d. split; [reflexivity|].
  rewrite (formatDate_of_parsed c r d E). cbn [fst snd].
  split; [reflexivity | apply calls_until_valid_no_print].
Qed.

End WithLib.

(** X11 at a fetch that is rejected. *)
Lemma failed_fetch_gives_empty_page_witness :
  fetch_failed (@rejected Response (Error (lit "network down"))) = true
  /\ outcome (@HomeAsync NumeralDates.numeral_lib
                (rejected (Error (lit "network down"))))
     = fulfilled (mkPage [] [] None [] []).
Proof.
  split; [reflexivity|].
  exact (proj1 (@failed_fetch_gives_empty_page NumeralDates.numeral_lib
                  (rejected (Error (lit "network down"))) eq_refl)).
Defined.

(** X10 at a feed read with the numeral dates: two articles of instant 5,
    one without date between them, then one of instant 3. *)
Lemma ordered_feed_keeps_its_order_witness :
  let feed := [NumeralDates.dated "a" (Some "5"%string);
               NumeralDates.dated "b" None;
               NumeralDates.dated "c" (Some "5"%string);
               NumeralDates.dated "d" (Some "3"%string)] in
  let kept := map (@with_parsedDate NumeralDates.numeral_lib)
                  (filter (@parseable NumeralDates.numeral_lib) feed) in
  StronglySorted (fun a b => (instant b <= instant a)%Z) kept
  /\ map (fun a => title (article a))
         (@sorted_of NumeralDates.numeral_lib feed)
     = [lit "a"; lit "c"; lit "d"].
Proof.
  intros feed kept.
  assert (Hs : StronglySorted (fun a b => (instant b <= instant a)%Z) kept)
    by (repeat constructor; vm_compute; intros H; discriminate H).
  split; [exact Hs|].
  rewrite (@ordered_feed_keeps_its_order NumeralDates.numeral_lib feed Hs).
  reflexivity.
Defined.

End PageMore.

(* ================================================================== *)
(** * Further properties of the card *)

Module CardMore.
Import News Card CardText CardEvents PageRender.

Section WithBrowser.
Variable encodeURIComponent : str -> str.
Variable hostname : str -> option str.

#[local] Abbreviation placeholder := (Card.placeholder encodeURIComponent).
#[local] Abbreviation chosen_image := (Card.chosen_image encodeURIComponent).
#[local] Abbreviation react := (Card.react encodeURIComponent).
#[local] Abbreviation run := (Card.run encodeURIComponent).
#[local] Abbreviation on_props := (Card.on_props encodeURIComponent hostname).

(** Each slot after a run of events, from the slot before it and the
    events of its own kind. *)
Lemma run_slots (p : props) (es : list card_event) :
  forall s,
    imageError (run p s es) = imageError s || existsb is_image_failure es
    /\ imageUrl (run p s es)
       = (if negb (imageError s) && existsb is_image_failure es
          then placeholder p else imageUrl s)
    /\ faviconError (run p s es)
       = faviconError s || existsb is_favicon_failure es
    /\ faviconUrl (run p s es) = faviconUrl s
    /\ isInView (run p s es) = isInView s || existsb is_entering_view es.
Proof.
  induction es as [|e es IH]; intros s.
  - unfold Card.run. simpl. rewrite !orb_false_r, andb_false_r. tauto.
  - unfold Card.run in *. simpl fold_left.
    destruct (IH (react p s e)) as (H1 & H2 & H3 & H4 & H5).
    rewrite H1, H2, H3, H4, H5. clear.
    destruct s as [iu ie fu fe iv].
    destruct e as [| |[|]];
      cbn [Card.react existsb is_image_failure is_favicon_failure
           is_entering_view];
      unfold Card.handleImageError, Card.handleFaviconError, Card.on_intersect;
      destruct ie, fe, iv,
        (existsb is_image_failure es), (existsb is_favicon_failure es),
        (existsb is_entering_view es);
      cbn; repeat split; reflexivity.
Qed.

(** ** X13 *)

(** X13.  The three slots of a card do not interfere: after any run of
    events the image address and its flag are what the image failures
    alone would give, the favicon flag what the favicon failures alone
    would give, and the visibility what the intersections alone would
    give; the favicon address is not touched by any event; and a card
    that has been in view stays in view. *)
Theorem card_slots_do_not_interfere
    (p : props) (s : card_state) (es : list card_event) :
  (imageUrl (run p s es), imageError (run p s es))
  = (imageUrl (run p s (filter is_image_failure es)),
     imageError (run p s (filter is_image_failure es)))
  /\ faviconError (run p s es)
     = faviconError (run p s (filter is_favicon_failure es))
  /\ isInView (run p s es)
     = isInView (run p s (filter is_entering_view es))
  /\ faviconUrl (run p s es) = faviconUrl s
  /\ isInView (run p s es) = isInView s || existsb is_entering_view es.
Proof.
  assert (Hex : forall f : card_event -> bool,
             existsb f (filter f es) = existsb f es).
  { intros f. induction es as [|e l IH]; simpl; [reflexivity|].
    destruct (f e) eqn:E; simpl; rewrite ?E; simpl; [reflexivity | exact IH]. }
  destruct (run_slots p es s) as (H1 & H2 & H3 & H4 & H5).
  destruct (run_slots p (filter is_image_failure es) s) as (I1 & I2 & _).
  destruct (run_slots p (filter is_favicon_failure es) s) as (_ & _ & F3 & _).
  destruct (run_slots p (filter is_entering_view es) s) as (_ & _ & _ & _ & V5).
  rewrite H1, H2, H3, H4, H5, I1, I2, F3, V5, !Hex. now repeat split.
Qed.

(** ** X14 *)

(** X14.  On a mounted card the favicon overlay is rendered exactly when
    the article has an address, the address has a host name, and no
    favicon load has failed since the props were set: a failure hides it
    for good, and nothing else does. *)
Theorem favicon_shown_until_it_fails
    (p : props) (s : card_state) (es : list card_event) :
  favicon_shown (run p (on_props p s) es)
  = match News.url (article p) with
    | [] => false
    | _ :: _ =>
        match hostname (News.url (article p)) with
        | Some _ => negb (existsb is_favicon_failure es)
        | None => false
        end
    end.
Proof.
  destruct (run_slots p es (on_props p s)) as (_ & _ & H3 & H4 & _).
  unfold favicon_shown. rewrite H3, H4. unfold Card.on_props.
  cbn [faviconUrl faviconError]. unfold Card.getFaviconUrl.
  destruct (News.url (article p)) as [|c r]; [reflexivity|].
  destruct (hostname (c :: r)); reflexivity.
Qed.

(** ** X15 *)

(** X15.  A mounted card only ever shows the article's own image or the
    placeholder: its own image (the placeholder when it has none) until
    an image load fails, the placeholder from then on; and the image is
    rendered optimised exactly as long as no image load has failed. *)
Theorem image_is_own_or_placeholder
    (p : props) (s : card_state) (es : list card_event) :
  imageUrl (run p (on_props p s) es)
  = (if existsb is_image_failure es then placeholder p
     else match News.imageUrl (article p) with
          | [] => placeholder p
          | c :: r => c :: r
          end)
  /\ optimized (run p (on_props p s) es)
     = negb (existsb is_image_failure es)
  /\ (News.imageUrl (article p) = [] ->
      imageUrl (run p (on_props p s) es) = placeholder p).
Proof.
  destruct (run_slots p es (on_props p s)) as (H1 & H2 & _).
  unfold optimized. rewrite H1, H2. unfold Card.on_props.
  cbn [imageUrl imageError]. unfold Card.chosen_image. simpl.
  repeat split; try reflexivity.
  intros E. rewrite E. now destruct (existsb is_image_failure es).
Qed.

End WithBrowser.

End CardMore.

(* ================================================================== *)
(** * From the fetch to the cards *)

Module PipelineMore.
Import Csv News Dates HomePage PageRender IngestionText OrderText
       JsStringFacts CsvFacts IngestionSpec OrderingSpec SortFacts.

(** The article of a row that passes the test has the row's title and
    address, which are not empty. *)
Lemma kept_row_title_url (row : list str) :
  Forall trimmed row ->
  has_title_and_url row = true ->
  title (article_of_row row) <> [] /\ url (article_of_row row) <> [].
Proof.
  intros Hrow Hkeep. unfold has_title_and_url in Hkeep.
  rewrite !(column_trimmed row Hrow) in Hkeep.
  apply andb_true_iff in Hkeep as [H0 H4].
  unfold article_of_row. cbn [title url]. rewrite !or_else_column, H0, H4.
  split; now apply truthy_not_nil.
Qed.

Section WithLib.
Context {lib : DateLib}.

Lemma rendered_cards_articles (allArticles : list NewsArticle) :
  map fst (rendered_cards (Home allArticles)) = sorted_of allArticles.
Proof.
  unfold Home, rendered_cards.
  cbn [sortedArticles newestArticles mainArticle sideArticles remainingArticles].
  rewrite slice_0. unfold slice_from.
  destruct (sorted_of allArticles) as [|a [|b [|c [|d [|e rest]]]]];
    try reflexivity.
  cbn [firstn skipn List.length Nat.ltb Nat.leb app map fst nth_error].
  rewrite !map_map. cbn [fst]. now rewrite map_id.
Qed.

(** ** X16 *)

(** X16.  Whatever the fetch gives, the page is computed and every card
    it renders is for an article with a non-empty title, a non-empty
    address and a valid instant; so the key of a card is always the
    article's address, never the positional fallback. *)
Theorem rendered_cards_have_title_url_and_instant
    (fetched : settled Response) :
  match outcome (HomeAsync fetched) with
  | fulfilled p =>
      Forall (fun a =>
                title (article a) <> [] /\ url (article a) <> []
                /\ has_instant a
                /\ (forall prefix index,
                       card_key a prefix index = url (article a)))
             (map fst (rendered_cards p))
  | rejected _ => False
  end.
Proof.
  destruct fetched as [[o st [body | e]] | e]; try destruct o;
    try (simpl; constructor).
  unfold HomeAsync. rewrite (getNews_on_text st body).
  unfold outcome, bind, ret. cbn [fst].
  set (articles := map article_of_row
                       (filter has_title_and_url (tl (parseCSV body)))).
  rewrite rendered_cards_articles.
  assert (Hart : Forall (fun a => title a <> [] /\ url a <> []) articles).
  { apply Forall_map, Forall_forall. intros row Hin.
    apply filter_In in Hin as [Hin Hkeep].
    apply kept_row_title_url; [|exact Hkeep].
    pose proof (parseCSV_trimmed body) as H. apply Forall_tl in H.
    rewrite Forall_forall in H. now apply H. }
  apply Forall_forall. intros a Ha.
  apply (Permutation_in a (sorted_of_perm articles)) in Ha.
  apply in_map_iff in Ha as (art & <- & Hin).
  apply filter_In in Hin as [Hin Hp].
  rewrite Forall_forall in Hart. destruct (Hart art Hin) as [Ht Hu].
  split; [exact Ht|]. split; [exact Hu|].
  split; [now apply with_parsedDate_has_instant|].
  intros prefix index. unfold card_key, with_parsedDate. cbn [article].
  destruct (url art); [congruence | reflexivity].
Qed.

End WithLib.

End PipelineMore.
